(** * Pedersen verifiable secret sharing: a shallow embedding of PedersenVSS.py

    The Python classes [PedersenVSS] and [CryptoWill] are embedded as Rocq
    functions over [Z] (Python's unbounded [int]).

    Conventions of the embedding.
    - Python's [%] and [//] are floor division; for a nonzero divisor they are
      exactly [Z.modulo] and [Z.div].  A zero divisor (ZeroDivisionError) and a
      non-positive bound of [secrets.randbelow] only arise when the instance is
      built with [prime <= 0]; every statement about a returned value assumes
      a positive modulus.
    - [raise ValueError(msg)] is the error value [inl (ValueError msg)], and an
      out-of-range list index is [inl IndexError].
    - [secrets.randbelow] reads the next value of an explicit tape of draws. *)

From Stdlib Require Import String ZArith List Bool Lia Morphisms Setoid.
Import ListNotations.
Local Open Scope Z_scope.

(** ** Exceptions and the error monad *)

Inductive exn : Type :=
| ValueError (msg : string)
| IndexError
| OverflowError.

Definition result (A : Type) : Type := (exn + A)%type.

Definition ret {A : Type} (a : A) : result A := inr a.

Definition raise {A : Type} (e : exn) : result A := inl e.

Definition bind {A B : Type} (m : result A) (k : A -> result B) : result B :=
  match m with
  | inl e => inl e
  | inr a => k a
  end.

Notation "x <- m ;; k" := (bind m (fun x => k))
  (at level 61, m at next level, right associativity).

(** The two failures the specification names are both [ValueError] in the
    source; they are told apart by their message. *)
Definition DomainError : exn := ValueError "Modular inverse does not exist".

Definition InsufficientSharesError : exn :=
  ValueError "Not enough shares for reconstruction".

(** ** Python list primitives *)

(** [l[j]]: a negative index counts from the end, anything out of range
    raises IndexError. *)
Definition getitem {A : Type} (l : list A) (j : Z) : result A :=
  let n := Z.of_nat (length l) in
  let k := if j <? 0 then j + n else j in
  if (k <? 0) || (n <=? k) then raise IndexError
  else match nth_error l (Z.to_nat k) with
       | Some a => ret a
       | None => raise IndexError
       end.

(** [l[:k]]: a negative bound counts from the end. *)
Definition slice_to {A : Type} (l : list A) (k : Z) : list A :=
  let n := Z.of_nat (length l) in
  firstn (Z.to_nat (if k <? 0 then k + n else k)) l.

(** [range(lo, hi)]. *)
Definition range (lo hi : Z) : list Z :=
  map (fun k => lo + Z.of_nat k) (seq 0 (Z.to_nat (hi - lo))).

(** [enumerate(l)]. *)
Definition enumerate {A : Type} (l : list A) : list (nat * A) :=
  combine (seq 0 (length l)) l.

(** [for x in xs: body] where the body may raise. *)
Fixpoint mapM {A B : Type} (f : A -> result B) (xs : list A) : result (list B) :=
  match xs with
  | [] => ret []
  | x :: xs' => y <- f x ;; ys <- mapM f xs' ;; ret (y :: ys)
  end.

(** ** The random source *)

(** The draws of [secrets.randbelow], in the order they are made. *)
Definition rng : Type := nat -> Z.

Definition randbelow (n : Z) (s : rng) : Z * rng :=
  (s O, fun k => s (S k)).

(** The tape only holds values that [randbelow(bound)] can return. *)
Definition draws_below (bound : Z) (s : rng) : Prop :=
  forall k, 0 <= s k < bound.

Module PedersenVSS.

(** [self.p], [self.g], [self.h]. *)
Record t : Type := Build { p : Z; g : Z; h : Z }.

Definition default_prime : Z := 2 ^ 127 - 1.

(** [__init__]. *)
Definition init (prime : Z) : t := {| p := prime; g := 2; h := 3 |}.

(** The nested [extended_gcd(a, b)].  The recursion of the source is on
    [(b % a, a)]; [fuel] bounds its depth. *)
Fixpoint extended_gcd_fuel (fuel : nat) (a b : Z) : option (Z * Z * Z) :=
  match fuel with
  | O => None
  | S fuel' =>
      if a =? 0 then Some (b, 0, 1)
      else
        match extended_gcd_fuel fuel' (b mod a) a with
        | Some (gcd, x1, y1) =>
            let x := y1 - (b / a) * x1 in
            let y := x1 in
            Some (gcd, x, y)
        | None => None
        end
  end.

(** A depth that always suffices (see [extended_gcd_fuel_enough]): the first
    argument at least halves every two calls. *)
Definition egcd_depth (a : Z) : nat :=
  S (2 * Z.to_nat (Z.log2 (Z.abs a) + 1)).

Definition extended_gcd (a b : Z) : Z * Z * Z :=
  match extended_gcd_fuel (egcd_depth a) a b with
  | Some r => r
  | None => (0, 0, 0)
  end.

Definition mod_inverse (a m : Z) : result Z :=
  let '(gcd, x, _) := extended_gcd (a mod m) m in
  if negb (gcd =? 1) then raise DomainError
  else ret ((x mod m + m) mod m).

(** The loop [for _ in range(threshold - 1): coefficients.append(randbelow(p))]. *)
Fixpoint append_draws (count : nat) (bound : Z) (coefficients : list Z) (s : rng)
  : list Z * rng :=
  match count with
  | O => (coefficients, s)
  | S count' =>
      let (c, s') := randbelow bound s in
      append_draws count' bound (coefficients ++ [c]) s'
  end.

Definition generate_polynomial (self : t) (secret threshold : Z) (s : rng)
  : list Z * rng :=
  append_draws (Z.to_nat (threshold - 1)) (p self) [secret] s.

Definition evaluate_polynomial (self : t) (coeffs : list Z) (x : Z) : Z :=
  fold_left (fun result coeff => (result * x + coeff) mod p self) (rev coeffs) 0.

(** The [while exp > 0] loop of [pow_mod], one iteration per binary digit of
    [exp], least significant first ([pow_mod_while_unfold] is the loop equation
    of the source).  - [xI]: [exp % 2 == 1], multiply, shift, square.  - [xO]:
    [exp % 2 == 0], shift, square.  - [xH]: last iteration, [exp >> 1 == 0]. *)
Fixpoint pow_mod_loop (exp : positive) (result base mod_ : Z) : Z :=
  match exp with
  | xH => (result * base) mod mod_
  | xO exp' => pow_mod_loop exp' result ((base * base) mod mod_) mod_
  | xI exp' =>
      pow_mod_loop exp' ((result * base) mod mod_) ((base * base) mod mod_) mod_
  end.

Definition pow_mod_while (result base exp mod_ : Z) : Z :=
  match exp with
  | Zpos e => pow_mod_loop e result base mod_
  | _ => result
  end.

Definition pow_mod (base exp mod_ : Z) : Z :=
  let result := 1 in
  let base := base mod mod_ in
  pow_mod_while result base exp mod_.

Definition commitment (self : t) (f_j g_j : Z) : Z :=
  (pow_mod (g self) f_j (p self) * pow_mod (h self) g_j (p self)) mod p self.

Definition generate_shares_and_commitments
  (self : t) (secret threshold num_shares : Z) (s : rng)
  : result (list (Z * Z) * list Z * list Z) :=
  let (f_coeffs, s1) := generate_polynomial self secret threshold s in
  let (g_coeffs, _) := generate_polynomial self 0 threshold s1 in
  let shares :=
    map (fun i => (evaluate_polynomial self f_coeffs i,
                   evaluate_polynomial self g_coeffs i))
        (range 1 (num_shares + 1)) in
  commitments <-
    mapM (fun j =>
            f_j <- getitem f_coeffs j ;;
            g_j <- getitem g_coeffs j ;;
            ret (commitment self f_j g_j))
         (range 0 threshold) ;;
  ret (shares, commitments, f_coeffs).

(** One iteration of the loop computing [right] in [verify_share]. *)
Definition verify_step (self : t) (share_index : Z) (commitments : list Z)
  (right : Z) (j : Z) : result Z :=
  let power := pow_mod share_index j (p self - 1) in
  c_j <- getitem commitments j ;;
  ret ((right * pow_mod c_j power (p self)) mod p self).

Fixpoint verify_loop (self : t) (share_index : Z) (commitments : list Z)
  (js : list Z) (right : Z) : result Z :=
  match js with
  | [] => ret right
  | j :: js' =>
      right' <- verify_step self share_index commitments right j ;;
      verify_loop self share_index commitments js' right'
  end.

Definition verify_share (self : t) (share_index : Z) (share : Z * Z)
  (commitments : list Z) (threshold : Z) : result bool :=
  let '(f_i, g_i) := share in
  let left :=
    (pow_mod (g self) f_i (p self) * pow_mod (h self) g_i (p self)) mod p self in
  right <- verify_loop self share_index commitments (range 0 threshold) 1 ;;
  ret (left =? right).

(** A revealed share: [(x, (f, g))]. *)
Abbreviation revealed := (Z * (Z * Z))%type.

(** The body of the inner loop of [lagrange_interpolation], for the share at
    position [i] with index [x_i]: [(j, (x_j, _))] is the entry visited. *)
Definition lagrange_terms_step (self : t) (i : nat) (x_i : Z)
  (acc : Z * Z) (e : nat * revealed) : Z * Z :=
  let '(numerator, denominator) := acc in
  let '(j, (x_j, _)) := e in
  if negb (Nat.eqb i j)
  then ((numerator * (- x_j)) mod p self,
        (denominator * (x_i - x_j)) mod p self)
  else (numerator, denominator).

(** The inner loop: numerator and denominator of the basis coefficient. *)
Definition lagrange_terms (self : t) (shares : list revealed) (i : nat) (x_i : Z)
  : Z * Z :=
  fold_left (lagrange_terms_step self i x_i) (enumerate shares) (1, 1).

(** The outer loop, over the entries of [enumerate(shares)] still to visit. *)
Fixpoint lagrange_loop (self : t) (shares : list revealed)
  (todo : list (nat * revealed)) (secret : Z) : result Z :=
  match todo with
  | [] => ret secret
  | (i, (x_i, (f_i, _))) :: todo' =>
      let '(numerator, denominator) := lagrange_terms self shares i x_i in
      inv <- mod_inverse denominator (p self) ;;
      let lagrange_coeff := (numerator * inv) mod p self in
      lagrange_loop self shares todo' ((secret + f_i * lagrange_coeff) mod p self)
  end.

Definition lagrange_interpolation (self : t) (shares : list revealed)
  (threshold : Z) : result Z :=
  if Z.of_nat (length shares) <? threshold then raise InsufficientSharesError
  else
    let shares := slice_to shares threshold in
    lagrange_loop self shares (enumerate shares) 0.

(** [secret.to_bytes(32, byteorder='big')]. *)
Definition to_bytes32 (secret : Z) : result (list Z) :=
  if (secret <? 0) || (2 ^ 256 <=? secret) then raise OverflowError
  else ret (map (fun k => (secret / 2 ^ (8 * (31 - Z.of_nat k))) mod 256) (seq 0 32)).

(** [hashlib.sha256(...).hexdigest()] is a parameter of the embedding. *)
Definition hash_secret (sha256_hexdigest : list Z -> string) (secret : Z)
  : result string :=
  secret_bytes <- to_bytes32 secret ;;
  ret (sha256_hexdigest secret_bytes).

End PedersenVSS.

Module CryptoWill.

(** One entry of [will_data['trustee_shares']]. *)
Record trustee : Type := Trustee {
  trustee_index : Z;
  share : Z * Z;
  verified : bool;
  revealed : bool
}.

(** The dictionary [will_data]. *)
Record will_data : Type := WillData {
  secret : Z;
  secret_hash : string;
  heirs : list string;
  heir_percentages : list Z;
  num_trustees : Z;
  threshold : Z;
  commitments : list Z;
  trustee_shares : list trustee;
  f_coefficients : list Z;
  prime : Z;
  generator_g : Z;
  generator_h : Z
}.

(** [self.vss]. *)
Record t : Type := Build { vss : PedersenVSS.t }.

Definition init (prime : Z) : t := {| vss := PedersenVSS.init prime |}.

Definition set_verified (td : trustee) : trustee :=
  {| trustee_index := trustee_index td; share := share td;
     verified := true; revealed := revealed td |}.

Fixpoint replace_nth {A : Type} (k : nat) (a : A) (l : list A) : list A :=
  match l, k with
  | [], _ => []
  | _ :: l', O => a :: l'
  | b :: l', S k' => b :: replace_nth k' a l'
  end.

Definition set_trustee_shares (w : will_data) (ts : list trustee) : will_data :=
  {| secret := secret w; secret_hash := secret_hash w; heirs := heirs w;
     heir_percentages := heir_percentages w; num_trustees := num_trustees w;
     threshold := threshold w; commitments := commitments w;
     trustee_shares := ts; f_coefficients := f_coefficients w;
     prime := prime w; generator_g := generator_g w;
     generator_h := generator_h w |}.

(** The methods take the dictionary and give it back next to their outcome:
    [verify_trustee_share] writes the [verified] flag of one trustee,
    [reconstruct_secret] writes nothing. *)
Definition verify_trustee_share (self : t) (w : will_data) (index : Z)
  : result bool * will_data :=
  match getitem (trustee_shares w) (index - 1) with
  | inl e => (inl e, w)
  | inr trustee_data =>
      match PedersenVSS.verify_share (vss self) index (share trustee_data)
              (commitments w) (threshold w) with
      | inl e => (inl e, w)
      | inr is_valid =>
          if is_valid then
            let n := Z.of_nat (length (trustee_shares w)) in
            let k := Z.to_nat (if index - 1 <? 0 then index - 1 + n else index - 1) in
            (ret true,
             set_trustee_shares w
               (replace_nth k (set_verified trustee_data) (trustee_shares w)))
          else (ret false, w)
      end
  end.

Definition reconstruct_secret (sha256_hexdigest : list Z -> string)
  (self : t) (w : will_data) (revealed_shares : list PedersenVSS.revealed)
  : result (bool * Z) * will_data :=
  if Z.of_nat (length revealed_shares) <? threshold w then (ret (false, 0), w)
  else
    (reconstructed_secret <-
       PedersenVSS.lagrange_interpolation (vss self) revealed_shares (threshold w) ;;
     reconstructed_hash <-
       PedersenVSS.hash_secret sha256_hexdigest reconstructed_secret ;;
     let original_hash := secret_hash w in
     ret (String.eqb reconstructed_hash original_hash, reconstructed_secret),
     w).

(** The loop building [trustee_shares] in [create_will]. *)
Definition make_trustees (shares : list (Z * Z)) : list trustee :=
  map (fun e : nat * (Z * Z) =>
         Trustee (Z.of_nat (fst e) + 1) (snd e) false false)
      (enumerate shares).

(** [create_will]; [sum(heir_percentages)] adds from the left, starting at 0.
    The secret is the first draw of the tape, the polynomials take the next. *)
Definition create_will (sha256_hexdigest : list Z -> string) (self : t)
  (heirs_ : list string) (heir_percentages_ : list Z)
  (num_trustees_ threshold_ : Z) (s : rng) : result will_data :=
  if negb (Nat.eqb (length heirs_) (length heir_percentages_)) then
    raise (ValueError "Number of heirs must match number of percentages")
  else if negb (fold_left Z.add heir_percentages_ 0 =? 100) then
    raise (ValueError "Percentages must sum to 100")
  else if threshold_ >? num_trustees_ then
    raise (ValueError "Threshold cannot exceed number of trustees")
  else
    let (secret_, s1) := randbelow (PedersenVSS.p (vss self)) s in
    hash_ <- PedersenVSS.hash_secret sha256_hexdigest secret_ ;;
    generated <-
      PedersenVSS.generate_shares_and_commitments
        (vss self) secret_ threshold_ num_trustees_ s1 ;;
    let '(shares, commitments_, f_coeffs) := generated in
    ret (WillData secret_ hash_ heirs_ heir_percentages_ num_trustees_
           threshold_ commitments_ (make_trustees shares) f_coeffs
           (PedersenVSS.p (vss self)) (PedersenVSS.g (vss self))
           (PedersenVSS.h (vss self))).

End CryptoWill.

(** ** Reference definitions

    Mathematical counterparts of the code, used to state and prove its
    properties. *)

(** The polynomial over the integers, constant coefficient first. *)
Fixpoint peval (coeffs : list Z) (x : Z) : Z :=
  match coeffs with
  | [] => 0
  | c :: coeffs' => c + x * peval coeffs' x
  end.

(** The reference definition of polynomial evaluation: the sum over [j] of
    [coeffs[j] * x^j]. *)
Definition monomial_sum (coeffs : list Z) (x : Z) : Z :=
  fold_right Z.add 0
    (map (fun jc : nat * Z => snd jc * x ^ Z.of_nat (fst jc)) (enumerate coeffs)).

(** Sums and products of integer lists. *)
Definition zsum (l : list Z) : Z := fold_right Z.add 0 l.

Definition zprod (l : list Z) : Z := fold_right Z.mul 1 l.

(** Polynomials as coefficient lists: sum, scalar multiple, product by
    [X - r], product of linear factors, sum of a family. *)
Fixpoint padd (a b : list Z) : list Z :=
  match a, b with
  | [], _ => b
  | _, [] => a
  | x :: a', y :: b' => (x + y) :: padd a' b'
  end.

Definition pscale (c : Z) (a : list Z) : list Z := map (Z.mul c) a.

Definition pmul_lin (r : Z) (a : list Z) : list Z :=
  padd (0 :: a) (pscale (- r) a).

Definition pprod_lin (rs : list Z) : list Z := fold_right pmul_lin [1] rs.

Definition psum (ps : list (list Z)) : list Z := fold_right padd [] ps.

(** Division of a polynomial by [X - a]: quotient and remainder. *)
Fixpoint pdiv_lin (a : Z) (q : list Z) : list Z * Z :=
  match q with
  | [] => ([], 0)
  | c :: cs =>
      match cs with
      | [] => ([], c)
      | _ => let (q', r') := pdiv_lin a cs in (r' :: q', c + a * r')
      end
  end.

(** The elements of [xs] are pairwise incongruent modulo [m]. *)
Fixpoint distinct_mod (m : Z) (xs : list Z) : Prop :=
  match xs with
  | [] => True
  | x :: xs' => (forall y, In y xs' -> ~ (m | y - x)) /\ distinct_mod m xs'
  end.

(** The indices of the other shares, as the inner loop sees them from
    position [i]. *)
Definition others (shares : list PedersenVSS.revealed) (i : nat) : list Z :=
  map (fun e : nat * PedersenVSS.revealed => fst (snd e))
      (filter (fun e : nat * PedersenVSS.revealed => negb (Nat.eqb i (fst e)))
              (enumerate shares)).

Definition inverse_or_zero (a m : Z) : Z :=
  match PedersenVSS.mod_inverse a m with
  | inr x => x
  | inl _ => 0
  end.

(** What the outer loop adds to [secret] for the entry [e]. *)
Definition lagrange_term (self : PedersenVSS.t) (shares : list PedersenVSS.revealed)
  (e : nat * PedersenVSS.revealed) : Z :=
  let '(i, (x_i, (f_i, _))) := e in
  let '(numerator, denominator) := PedersenVSS.lagrange_terms self shares i x_i in
  f_i * ((numerator * inverse_or_zero denominator (PedersenVSS.p self))
         mod PedersenVSS.p self).

(** The scalar of the basis polynomial of the entry [e]. *)
Definition lagrange_scalar (self : PedersenVSS.t) (shares : list PedersenVSS.revealed)
  (e : nat * PedersenVSS.revealed) : Z :=
  let '(i, (x_i, (f_i, _))) := e in
  f_i * inverse_or_zero (snd (PedersenVSS.lagrange_terms self shares i x_i)) (PedersenVSS.p self).

(** The interpolating polynomial through the selected shares. *)
Definition interpolant (self : PedersenVSS.t) (shares : list PedersenVSS.revealed) : list Z :=
  psum (map (fun e => pscale (lagrange_scalar self shares e)
                             (pprod_lin (others shares (fst e))))
            (enumerate shares)).

(** [int.from_bytes(bs, byteorder='big')]. *)
Definition from_bytes_big (bs : list Z) : Z :=
  fold_left (fun acc b => acc * 256 + b) bs 0.

(** ** Concrete inputs *)

(** A constant tape, for the small instances. *)
Definition sample_tape : rng := fun _ => 5.

(** The draws used in the concrete runs on the default prime. *)
Definition run_tape : rng :=
  fun k => match k with
           | 0%nat => 2 ^ 126
           | 1%nat => 2 ^ 125 + 7
           | 2%nat => 2 ^ 126 + 12345
           | _ => 2 ^ 120
           end.

(** A will with threshold 3. *)
Definition sample_will : CryptoWill.will_data :=
  {| CryptoWill.secret := 42;
     CryptoWill.secret_hash := "00"%string;
     CryptoWill.heirs := ["0x1234"%string; "0x2345"%string];
     CryptoWill.heir_percentages := [60; 40];
     CryptoWill.num_trustees := 5;
     CryptoWill.threshold := 3;
     CryptoWill.commitments := [1; 2; 3];
     CryptoWill.trustee_shares := [];
     CryptoWill.f_coefficients := [42; 1; 2];
     CryptoWill.prime := PedersenVSS.default_prime;
     CryptoWill.generator_g := 2;
     CryptoWill.generator_h := 3 |}.

(** * Properties
    Names of the source are used unqualified from here on. *)

Import PedersenVSS.

(** ** The extended Euclidean algorithm and the modular inverse *)

Section ExtendedGcd.

Lemma extended_gcd_fuel_S (fuel : nat) :
  forall a b r,
    extended_gcd_fuel fuel a b = Some r ->
    extended_gcd_fuel (S fuel) a b = Some r.
Proof.
  induction fuel as [|fuel IH]; intros a b r H; [discriminate|].
  cbn [extended_gcd_fuel] in H |- *.
  destruct (a =? 0); [exact H|].
  destruct (extended_gcd_fuel fuel (b mod a) a) as [[[g0 x1] y1]|] eqn:E;
    [|discriminate].
  apply IH in E. cbn [extended_gcd_fuel] in E. rewrite E. exact H.
Qed.

Lemma extended_gcd_fuel_mono (fuel fuel' : nat) a b r :
  (fuel <= fuel')%nat ->
  extended_gcd_fuel fuel a b = Some r ->
  extended_gcd_fuel fuel' a b = Some r.
Proof.
  induction 1 as [|k _ IH]; intro H; [exact H|].
  apply extended_gcd_fuel_S, IH, H.
Qed.

Lemma remainder_halves a b :
  a <> 0 -> b mod a <> 0 -> 2 * Z.abs (a mod (b mod a)) < Z.abs a.
Proof.
  intros Ha Hr.
  destruct (Z.lt_total a 0) as [Hneg|[?|Hpos]]; [|contradiction|].
  - pose proof (Z.mod_neg_bound b a Hneg) as B1.
    assert (Hr' : b mod a < 0) by lia.
    pose proof (Z.mod_neg_bound a (b mod a) Hr') as B2.
    pose proof (Z.div_mod a (b mod a) Hr) as D.
    assert (1 <= a / (b mod a)) by nia.
    nia.
  - pose proof (Z.mod_pos_bound b a Hpos) as B1.
    assert (Hr' : 0 < b mod a) by lia.
    pose proof (Z.mod_pos_bound a (b mod a) Hr') as B2.
    pose proof (Z.div_mod a (b mod a) Hr) as D.
    assert (1 <= a / (b mod a)) by nia.
    nia.
Qed.

Lemma extended_gcd_fuel_enough (n : nat) :
  forall a b, Z.abs a < 2 ^ Z.of_nat n ->
              exists r, extended_gcd_fuel (S (2 * n)) a b = Some r.
Proof.
  induction n as [|n IH]; intros a b Ha.
  - assert (a = 0) by (change (2 ^ Z.of_nat 0) with 1 in Ha; lia).
    subst a. cbn. eauto.
  - replace (S (2 * S n)) with (S (S (S (2 * n)))) by lia.
    cbn [extended_gcd_fuel].
    destruct (Z.eqb_spec a 0) as [|Ha0]; [eauto|].
    destruct (Z.eqb_spec (b mod a) 0) as [|Hr0]; [eauto|].
    destruct (IH (a mod (b mod a)) (b mod a)) as [[[g0 x1] y1] E].
    + pose proof (remainder_halves a b Ha0 Hr0).
      rewrite Nat2Z.inj_succ, Z.pow_succ_r in Ha by lia. lia.
    + cbn [extended_gcd_fuel] in E. rewrite E. eauto.
Qed.

Lemma egcd_depth_enough a b :
  exists r, extended_gcd_fuel (egcd_depth a) a b = Some r.
Proof.
  unfold egcd_depth. apply extended_gcd_fuel_enough.
  rewrite Z2Nat.id by (pose proof (Z.log2_nonneg (Z.abs a)); lia).
  destruct (Z.eq_dec a 0) as [->|Ha].
  - reflexivity.
  - apply Z.log2_spec. lia.
Qed.

Lemma extended_gcd_fuel_sound fuel a b r :
  extended_gcd_fuel fuel a b = Some r -> extended_gcd a b = r.
Proof.
  intro H. unfold extended_gcd.
  destruct (egcd_depth_enough a b) as [r' E]. rewrite E.
  destruct (Nat.le_ge_cases fuel (egcd_depth a)) as [L|L].
  - apply (extended_gcd_fuel_mono _ _ _ _ _ L) in H. congruence.
  - apply (extended_gcd_fuel_mono _ _ _ _ _ L) in E. congruence.
Qed.

(** The recursion equation of the source. *)
Lemma extended_gcd_unfold a b :
  extended_gcd a b =
    if a =? 0 then (b, 0, 1)
    else let '(gcd, x1, y1) := extended_gcd (b mod a) a in
         (gcd, y1 - (b / a) * x1, x1).
Proof.
  destruct (egcd_depth_enough a b) as [r E].
  rewrite (extended_gcd_fuel_sound _ _ _ _ E).
  unfold egcd_depth in E. cbn [extended_gcd_fuel] in E.
  destruct (a =? 0); [congruence|].
  destruct (extended_gcd_fuel _ (b mod a) a) as [[[g0 x1] y1]|] eqn:E1;
    [|discriminate].
  rewrite (extended_gcd_fuel_sound _ _ _ _ E1). congruence.
Qed.

Lemma extended_gcd_spec a :
  0 <= a -> forall b, 0 <= b ->
  let '(gcd, x, y) := extended_gcd a b in
  gcd = Z.gcd a b /\ a * x + b * y = gcd.
Proof.
  intro Ha. pattern a. apply Zlt_0_ind; [|exact Ha].
  clear a Ha. intros a IH Ha b Hb.
  rewrite extended_gcd_unfold.
  destruct (Z.eqb_spec a 0) as [->|Ha0].
  - rewrite Z.gcd_0_l, Z.abs_eq by lia. lia.
  - assert (Hpos : 0 < a) by lia.
    pose proof (Z.mod_pos_bound b a Hpos) as B.
    specialize (IH (b mod a) B a Ha).
    destruct (extended_gcd (b mod a) a) as [[g0 x1] y1].
    destruct IH as [Hg Hlin]. split.
    + rewrite Hg. rewrite Z.gcd_mod by lia. reflexivity.
    + pose proof (Z.div_mod b a Ha0). nia.
Qed.

End ExtendedGcd.

Section ModInverse.

Variables a m : Z.
Hypothesis m_pos : 0 < m.

Lemma mod_inverse_gcd :
  fst (fst (extended_gcd (a mod m) m)) = Z.gcd a m.
Proof.
  pose proof (Z.mod_pos_bound a m m_pos) as B.
  pose proof (extended_gcd_spec (a mod m) (proj1 B) m (Z.lt_le_incl _ _ m_pos)) as S.
  destruct (extended_gcd (a mod m) m) as [[g0 x] y]. cbn.
  destruct S as [-> _]. rewrite Z.gcd_mod by lia. apply Z.gcd_comm.
Qed.

Lemma mod_inverse_error :
  Z.gcd a m <> 1 -> mod_inverse a m = inl DomainError.
Proof.
  intro H. unfold mod_inverse. pose proof mod_inverse_gcd as G.
  destruct (extended_gcd (a mod m) m) as [[g0 x] y]. cbn in G. subst g0.
  destruct (Z.eqb_spec (Z.gcd a m) 1); [contradiction|reflexivity].
Qed.

Lemma mod_inverse_ok :
  Z.gcd a m = 1 ->
  exists x, mod_inverse a m = inr x /\ 0 <= x < m /\ (a * x) mod m = 1 mod m.
Proof.
  intro H. unfold mod_inverse. pose proof mod_inverse_gcd as G.
  pose proof (Z.mod_pos_bound a m m_pos) as B.
  pose proof (extended_gcd_spec (a mod m) (proj1 B) m (Z.lt_le_incl _ _ m_pos)) as S.
  destruct (extended_gcd (a mod m) m) as [[g0 x] y]. cbn in G.
  destruct S as [_ L]. rewrite G, H in *. cbn.
  exists ((x mod m + m) mod m). split; [reflexivity|]. split.
  - apply Z.mod_pos_bound, m_pos.
  - rewrite <- Z.add_mod_idemp_r, Z.mod_same, Z.add_0_r by lia.
    rewrite Z.mod_mod by lia.
    rewrite Z.mul_mod_idemp_r by lia.
    rewrite <- Z.mul_mod_idemp_l by lia.
    replace (a mod m * x) with (1 + (- y) * m) by lia.
    rewrite Z.mod_add by lia. reflexivity.
Qed.

End ModInverse.

Lemma inverse_mod_unique a m x y :
  0 < m -> 0 <= x < m -> 0 <= y < m ->
  (a * x) mod m = 1 mod m -> (a * y) mod m = 1 mod m -> y = x.
Proof.
  intros Hm Hx Hy Ex Ey.
  assert (Y : y mod m = (y * (a * x)) mod m).
  { rewrite <- (Z.mul_mod_idemp_r y (a * x)), Ex, Z.mul_mod_idemp_r by lia.
    f_equal. ring. }
  assert (X : x mod m = (x * (a * y)) mod m).
  { rewrite <- (Z.mul_mod_idemp_r x (a * y)), Ey, Z.mul_mod_idemp_r by lia.
    f_equal. ring. }
  rewrite <- (Z.mod_small y m), <- (Z.mod_small x m), X, Y by lia.
  f_equal. ring.
Qed.

(** C6. For a modulus [m > 1], [mod_inverse a m] raises the DomainError
    exactly when [gcd(a, m) <> 1]; when [gcd(a, m) = 1] it returns the unique
    [x] in [[0, m)] with [(a * x) mod m = 1]. *)
Theorem mod_inverse_contract (a m : Z) :
  1 < m ->
  (mod_inverse a m = inl DomainError <-> Z.gcd a m <> 1) /\
  (Z.gcd a m = 1 ->
   exists x, mod_inverse a m = inr x /\ 0 <= x < m /\ (a * x) mod m = 1 /\
             forall y, 0 <= y < m -> (a * y) mod m = 1 -> y = x).
Proof.
  intro Hm. assert (Hpos : 0 < m) by lia.
  assert (H1 : 1 mod m = 1) by (apply Z.mod_small; lia).
  split.
  - split.
    + intros E G. destruct (mod_inverse_ok a m Hpos G) as (x & Ex & _).
      congruence.
    + apply mod_inverse_error, Hpos.
  - intro G. destruct (mod_inverse_ok a m Hpos G) as (x & Ex & Bx & Mx).
    exists x. repeat split; try tauto; try lia.
    intros y By My. apply (inverse_mod_unique a m); try lia; congruence.
Qed.

Lemma mod_inverse_contract_witness :
  (mod_inverse 3 7 = inl DomainError <-> Z.gcd 3 7 <> 1) /\
  (Z.gcd 3 7 = 1 ->
   exists x, mod_inverse 3 7 = inr x /\ 0 <= x < 7 /\ (3 * x) mod 7 = 1 /\
             forall y, 0 <= y < 7 -> (3 * y) mod 7 = 1 -> y = x).
Proof. apply (mod_inverse_contract 3 7). lia. Defined.

(** ** Modular exponentiation *)

Section PowMod.

(** The loop equation of the source: one pass through the body of
    [while exp > 0]. *)
Lemma pow_mod_while_unfold result base exp mod_ :
  pow_mod_while result base exp mod_ =
    if exp >? 0 then
      let result := if exp mod 2 =? 1 then (result * base) mod mod_ else result in
      let exp := Z.shiftr exp 1 in
      let base := (base * base) mod mod_ in
      pow_mod_while result base exp mod_
    else result.
Proof.
  destruct exp as [|e|e]; try reflexivity.
  destruct e as [e|e|]; try reflexivity.
  - change (Z.pos e~1 >? 0) with true. cbv iota zeta.
    replace (Z.pos e~1 mod 2) with 1
      by (rewrite Pos2Z.inj_xI, Z.mul_comm, Z.add_comm, Z.mod_add by lia;
          reflexivity).
    reflexivity.
  - change (Z.pos e~0 >? 0) with true. cbv iota zeta.
    replace (Z.pos e~0 mod 2) with 0
      by (rewrite Pos2Z.inj_xO, Z.mul_comm, Z.mod_mul by lia; reflexivity).
    reflexivity.
Qed.

Variable m : Z.
Hypothesis m_pos : 0 < m.

Lemma pow_mod_loop_spec (e : positive) :
  forall r b, pow_mod_loop e r b m = (r * b ^ Z.pos e) mod m.
Proof.
  induction e as [e IH|e IH|]; intros r b; cbn [pow_mod_loop].
  - rewrite IH, Pos2Z.inj_xI.
    rewrite Z.pow_add_r, Z.pow_1_r, Z.pow_mul_r by lia.
    rewrite <- Z.mul_mod_idemp_r, Z.mod_pow_l, Z.mul_mod_idemp_r by lia.
    rewrite Z.mul_mod_idemp_l by lia.
    rewrite Z.pow_2_r. f_equal. ring.
  - rewrite IH, Pos2Z.inj_xO.
    rewrite Z.pow_mul_r by lia.
    rewrite <- Z.mul_mod_idemp_r, Z.mod_pow_l, Z.mul_mod_idemp_r by lia.
    rewrite Z.pow_2_r. reflexivity.
  - rewrite Z.pow_1_r. reflexivity.
Qed.

(** For a positive exponent the result is the reduced power. *)
Lemma pow_mod_pos base exp :
  0 < exp -> pow_mod base exp m = base ^ exp mod m.
Proof.
  intro H. destruct exp as [|e|e]; try lia.
  unfold pow_mod, pow_mod_while. rewrite pow_mod_loop_spec, Z.mul_1_l.
  apply Z.mod_pow_l.
Qed.

(** For every non-negative exponent the result is congruent to the power. *)
Lemma pow_mod_congr base exp :
  0 <= exp -> pow_mod base exp m mod m = base ^ exp mod m.
Proof.
  intro H. destruct (Z.eq_dec exp 0) as [->|N].
  - reflexivity.
  - rewrite pow_mod_pos by lia. apply Z.mod_mod. lia.
Qed.

Lemma pow_mod_spec base exp :
  1 < m -> 0 <= exp -> pow_mod base exp m = base ^ exp mod m.
Proof.
  intros M H. destruct (Z.eq_dec exp 0) as [->|N].
  - cbn. rewrite Z.mod_small; lia.
  - apply pow_mod_pos. lia.
Qed.

End PowMod.

(** C7.  [pow_mod(5, 0, 1)] returns 1, which is neither [5^0 mod 1 = 0] nor a
    value of [[0, 1)]: the accumulator starts at 1 and is only reduced inside
    the loop, which a zero exponent never enters. *)
Theorem pow_mod_modulus_one :
  pow_mod 5 0 1 = 1 /\ 5 ^ 0 mod 1 = 0 /\ ~ (0 <= pow_mod 5 0 1 < 1).
Proof. repeat split. cbn. lia. Qed.

(** ** Horner evaluation *)

Section Horner.

Variable self : PedersenVSS.t.

Lemma monomial_sum_from (coeffs : list Z) (x : Z) :
  forall k,
    fold_right Z.add 0
      (map (fun jc : nat * Z => snd jc * x ^ Z.of_nat (fst jc))
           (combine (seq k (length coeffs)) coeffs))
    = x ^ Z.of_nat k * peval coeffs x.
Proof.
  induction coeffs as [|c cs IH]; intro k; cbn [length seq combine map fold_right peval].
  - ring.
  - rewrite IH, Nat2Z.inj_succ, Z.pow_succ_r by lia. cbn [fst snd]. ring.
Qed.

Lemma monomial_sum_peval coeffs x : monomial_sum coeffs x = peval coeffs x.
Proof.
  unfold monomial_sum, enumerate. rewrite monomial_sum_from.
  change (Z.of_nat 0) with 0. rewrite Z.pow_0_r. ring.
Qed.

Hypothesis p_pos : 0 < p self.

Lemma evaluate_polynomial_peval coeffs x :
  evaluate_polynomial self coeffs x = peval coeffs x mod p self.
Proof.
  unfold evaluate_polynomial. rewrite <- fold_left_rev_right, rev_involutive.
  induction coeffs as [|c cs IH]; cbn [fold_right peval].
  - rewrite Z.mod_0_l; lia.
  - rewrite IH.
    rewrite <- Z.add_mod_idemp_l, Z.mul_mod_idemp_l, Z.add_mod_idemp_l by lia.
    f_equal. ring.
Qed.

End Horner.

(** C8.  Horner's loop computes the reference sum reduced modulo [p], a value
    of [[0, p)]. *)
Theorem evaluate_polynomial_horner (self : PedersenVSS.t) (coeffs : list Z) (x : Z) :
  0 < p self ->
  evaluate_polynomial self coeffs x = monomial_sum coeffs x mod p self /\
  0 <= evaluate_polynomial self coeffs x < p self.
Proof.
  intro Hp. rewrite evaluate_polynomial_peval, monomial_sum_peval by exact Hp.
  split; [reflexivity|]. apply Z.mod_pos_bound, Hp.
Qed.

Lemma evaluate_polynomial_horner_witness :
  evaluate_polynomial (init 7) [3; 5; 2] 4 = monomial_sum [3; 5; 2] 4 mod p (init 7) /\
  0 <= evaluate_polynomial (init 7) [3; 5; 2] 4 < p (init 7).
Proof. apply (evaluate_polynomial_horner (init 7) [3; 5; 2] 4). reflexivity. Defined.

(** ** Python list primitives *)

Section ListPrimitives.

Context {A : Type}.

Lemma getitem_nth_error (l : list A) (j : Z) (a : A) :
  0 <= j -> nth_error l (Z.to_nat j) = Some a -> getitem l j = inr a.
Proof.
  intros Hj H. unfold getitem.
  assert (L : (Z.to_nat j < length l)%nat)
    by (apply nth_error_Some; congruence).
  destruct (Z.ltb_spec j 0); [lia|].
  destruct (Z.ltb_spec j 0); [lia|].
  destruct (Z.leb_spec (Z.of_nat (length l)) j); [lia|].
  cbn. rewrite H. reflexivity.
Qed.

Lemma slice_to_all (l : list A) (k : Z) :
  k = Z.of_nat (length l) -> slice_to l k = l.
Proof.
  intros ->. unfold slice_to.
  destruct (Z.ltb_spec (Z.of_nat (length l)) 0); [lia|].
  rewrite Nat2Z.id. apply firstn_all.
Qed.

Lemma slice_to_firstn (l : list A) (k : Z) :
  0 <= k -> slice_to l k = firstn (Z.to_nat k) l.
Proof.
  intro H. unfold slice_to. destruct (Z.ltb_spec k 0); [lia|reflexivity].
Qed.

Lemma enumerate_In (l : list A) (i : nat) (a : A) :
  In (i, a) (enumerate l) <-> nth_error l i = Some a.
Proof.
  unfold enumerate.
  assert (G : forall k, In (i, a) (combine (seq k (length l)) l) <->
                        (k <= i)%nat /\ nth_error l (i - k) = Some a).
  { induction l as [|b l IH]; intro k; cbn [length seq combine In].
    - split; [tauto|]. intros [_ H]. destruct (i - k)%nat; discriminate.
    - rewrite IH. split.
      + intros [E|[L H]].
        * inversion E; subst. split; [lia|]. rewrite Nat.sub_diag. reflexivity.
        * split; [lia|]. replace (i - k)%nat with (S (i - S k)) by lia. exact H.
      + intros [L H]. destruct (Nat.eq_dec k i) as [->|N].
        * rewrite Nat.sub_diag in H. cbn in H. left. congruence.
        * right. split; [lia|].
          replace (i - k)%nat with (S (i - S k)) in H by lia. exact H. }
  rewrite G, Nat.sub_0_r. split; [tauto|]. split; [lia|assumption].
Qed.

Lemma enumerate_NoDup (l : list A) : NoDup (enumerate l).
Proof.
  unfold enumerate.
  assert (G : forall (xs : list nat), NoDup xs -> forall l' : list A,
               NoDup (combine xs l')).
  { induction 1 as [|x xs Hx _ IH]; intros l'; [constructor|].
    destruct l' as [|b l']; cbn; constructor; [|apply IH].
    intro H. apply in_combine_l in H. contradiction. }
  apply G, seq_NoDup.
Qed.

End ListPrimitives.

Lemma mapM_map {A B : Type} (f : A -> result B) (g : A -> B) (xs : list A) :
  (forall x, In x xs -> f x = inr (g x)) -> mapM f xs = inr (map g xs).
Proof.
  induction xs as [|x xs IH]; intro H; cbn [mapM map]; [reflexivity|].
  rewrite (H x (or_introl eq_refl)), IH by (intros; apply H; now right).
  reflexivity.
Qed.

Lemma range_In lo hi j : In j (range lo hi) <-> lo <= j < hi.
Proof.
  unfold range. rewrite in_map_iff. split.
  - intros (k & <- & H). apply in_seq in H. lia.
  - intro H. exists (Z.to_nat (j - lo)). split; [lia|]. apply in_seq. lia.
Qed.

Lemma range_length lo hi : length (range lo hi) = Z.to_nat (hi - lo).
Proof. unfold range. rewrite length_map, length_seq. reflexivity. Qed.

Lemma range_nth_error lo hi (k : nat) :
  (k < Z.to_nat (hi - lo))%nat ->
  nth_error (range lo hi) k = Some (lo + Z.of_nat k).
Proof.
  intro H. unfold range. rewrite nth_error_map, nth_error_seq.
  destruct (Nat.ltb_spec k (Z.to_nat (hi - lo))); [reflexivity|lia].
Qed.

(** ** Share generation *)

Section Generation.

Variable self : PedersenVSS.t.

Lemma append_draws_spec (count : nat) (bound : Z) :
  forall coefficients s,
    fst (append_draws count bound coefficients s)
    = coefficients ++ map s (seq 0 count) /\
    forall k, snd (append_draws count bound coefficients s) k = s (count + k)%nat.
Proof.
  induction count as [|count IH]; intros coefficients s; cbn [append_draws].
  - cbn. rewrite app_nil_r. auto.
  - unfold randbelow. destruct (IH (coefficients ++ [s O]) (fun k => s (S k)))
      as [E1 E2].
    rewrite E1. split.
    + rewrite <- app_assoc. cbn [app seq map]. rewrite <- seq_shift, map_map.
      reflexivity.
    + intro k. rewrite E2. reflexivity.
Qed.

Lemma generate_polynomial_coeffs secret threshold s :
  fst (generate_polynomial self secret threshold s)
  = secret :: map s (seq 0 (Z.to_nat (threshold - 1))).
Proof. unfold generate_polynomial. apply append_draws_spec. Qed.

Lemma generate_polynomial_length secret threshold s :
  length (fst (generate_polynomial self secret threshold s))
  = Z.to_nat (Z.max 1 threshold).
Proof.
  rewrite generate_polynomial_coeffs. cbn [length].
  rewrite length_map, length_seq. lia.
Qed.

Lemma generate_polynomial_draws secret threshold s bound :
  draws_below bound s ->
  draws_below bound (snd (generate_polynomial self secret threshold s)).
Proof.
  intros H k. unfold generate_polynomial.
  rewrite (proj2 (append_draws_spec _ _ _ _)). apply H.
Qed.

Lemma generate_polynomial_range secret threshold s bound c :
  0 <= secret -> draws_below bound s ->
  In c (fst (generate_polynomial self secret threshold s)) -> 0 <= c.
Proof.
  intros Hs Hd. rewrite generate_polynomial_coeffs. intros [<-|H]; [exact Hs|].
  apply in_map_iff in H. destruct H as (k & <- & _). apply Hd.
Qed.

(** What the method returns, for every argument: no path raises. *)
Lemma generate_returns secret threshold num_shares s :
  let f_coeffs := fst (generate_polynomial self secret threshold s) in
  let s1 := snd (generate_polynomial self secret threshold s) in
  let g_coeffs := fst (generate_polynomial self 0 threshold s1) in
  generate_shares_and_commitments self secret threshold num_shares s
  = inr (map (fun i => (evaluate_polynomial self f_coeffs i,
                        evaluate_polynomial self g_coeffs i))
             (range 1 (num_shares + 1)),
         map (fun j => commitment self (nth (Z.to_nat j) f_coeffs 0)
                                       (nth (Z.to_nat j) g_coeffs 0))
             (range 0 threshold),
         f_coeffs).
Proof.
  intros f_coeffs s1 g_coeffs. unfold generate_shares_and_commitments.
  pose proof (generate_polynomial_length secret threshold s) as Lf.
  pose proof (generate_polynomial_length 0 threshold s1) as Lg.
  fold f_coeffs in Lf. fold s1 g_coeffs in Lg.
  destruct (generate_polynomial self secret threshold s) as [f0 s0] eqn:Ef.
  cbn [fst snd] in f_coeffs, s1. subst f_coeffs s1.
  destruct (generate_polynomial self 0 threshold s0) as [g0 s2] eqn:Eg.
  cbn [fst] in g_coeffs. subst g_coeffs.
  erewrite mapM_map; [reflexivity|].
  intros j Hj. apply range_In in Hj.
  rewrite (getitem_nth_error f0 j (nth (Z.to_nat j) f0 0)); [|lia|].
  - cbn [bind].
    rewrite (getitem_nth_error g0 j (nth (Z.to_nat j) g0 0)); [reflexivity|lia|].
    apply nth_error_nth'. lia.
  - apply nth_error_nth'. lia.
Qed.

End Generation.

Lemma commitment_spec (self : PedersenVSS.t) (a b : Z) :
  0 < p self -> 0 <= a -> 0 <= b ->
  commitment self a b = (g self ^ a * h self ^ b) mod p self.
Proof.
  intros Hp Ha Hb. unfold commitment.
  rewrite Z.mul_mod, !pow_mod_congr, <- Z.mul_mod by lia. reflexivity.
Qed.

(** C9.  For [t >= 1] and [n >= 1] the method draws [f_coeffs] and [g_coeffs]
    of length [t] with constant terms [secret] and [0], returns [n] shares,
    share [i] being both polynomials evaluated at [i], and [t] commitments
    [(g^f_j * h^g_j) mod p]. *)
Theorem generation_structure (self : PedersenVSS.t) (secret t n : Z) (s : rng) :
  0 < p self -> 0 <= secret -> draws_below (p self) s -> 1 <= t -> 1 <= n ->
  exists f_coeffs g_coeffs s1 s2 shares commitments,
    generate_polynomial self secret t s = (f_coeffs, s1) /\
    generate_polynomial self 0 t s1 = (g_coeffs, s2) /\
    generate_shares_and_commitments self secret t n s
    = inr (shares, commitments, f_coeffs) /\
    length f_coeffs = Z.to_nat t /\ nth_error f_coeffs 0 = Some secret /\
    length g_coeffs = Z.to_nat t /\ nth_error g_coeffs 0 = Some 0 /\
    length shares = Z.to_nat n /\
    (forall i, 1 <= i <= n ->
               nth_error shares (Z.to_nat (i - 1))
               = Some (evaluate_polynomial self f_coeffs i,
                       evaluate_polynomial self g_coeffs i)) /\
    length commitments = Z.to_nat t /\
    (forall j, 0 <= j < t ->
               exists f_j g_j,
                 nth_error f_coeffs (Z.to_nat j) = Some f_j /\
                 nth_error g_coeffs (Z.to_nat j) = Some g_j /\
                 nth_error commitments (Z.to_nat j)
                 = Some ((g self ^ f_j * h self ^ g_j) mod p self)).
Proof.
  intros Hp Hs Hd Ht Hn.
  pose proof (generate_returns self secret t n s) as R. cbv zeta in R.
  pose proof (generate_polynomial_length self secret t s) as Lf.
  pose proof (generate_polynomial_coeffs self secret t s) as Cf.
  pose proof (generate_polynomial_range self secret t s (p self)) as Rf.
  pose proof (generate_polynomial_draws self secret t s (p self) Hd) as Hd1.
  destruct (generate_polynomial self secret t s) as [f_coeffs s1] eqn:Ef.
  cbn [fst snd] in *.
  pose proof (generate_polynomial_length self 0 t s1) as Lg.
  pose proof (generate_polynomial_coeffs self 0 t s1) as Cg.
  pose proof (generate_polynomial_range self 0 t s1 (p self)) as Rg.
  destruct (generate_polynomial self 0 t s1) as [g_coeffs s2] eqn:Eg.
  cbn [fst snd] in *.
  rewrite Z.max_r in Lf, Lg by lia.
  eexists f_coeffs, g_coeffs, s1, s2, _, _.
  split; [reflexivity|]. split; [exact Eg|]. split; [exact R|].
  split; [exact Lf|]. split; [rewrite Cf; reflexivity|].
  split; [exact Lg|]. split; [rewrite Cg; reflexivity|].
  split; [|split; [|split]].
  - rewrite length_map, range_length. f_equal. lia.
  - intros i Hi. rewrite nth_error_map, range_nth_error by lia.
    cbn [option_map]. repeat f_equal; lia.
  - rewrite length_map, range_length. f_equal. lia.
  - intros j Hj.
    assert (Jf : (Z.to_nat j < length f_coeffs)%nat) by lia.
    assert (Jg : (Z.to_nat j < length g_coeffs)%nat) by lia.
    exists (nth (Z.to_nat j) f_coeffs 0), (nth (Z.to_nat j) g_coeffs 0).
    split; [apply nth_error_nth'; exact Jf|].
    split; [apply nth_error_nth'; exact Jg|].
    rewrite nth_error_map, range_nth_error by lia.
    cbn [option_map]. rewrite Z.add_0_l, Z2Nat.id by lia. f_equal.
    apply commitment_spec; [exact Hp| |].
    + apply Rf; [exact Hs|exact Hd|]. apply nth_In. exact Jf.
    + apply Rg; [lia|exact Hd1|]. apply nth_In. exact Jg.
Qed.

Lemma sample_tape_below : draws_below 7 sample_tape.
Proof. intro k. unfold sample_tape. lia. Qed.

Lemma generation_structure_witness :
  exists f_coeffs g_coeffs s1 s2 shares commitments,
    generate_polynomial (init 7) 3 2 sample_tape = (f_coeffs, s1) /\
    generate_polynomial (init 7) 0 2 s1 = (g_coeffs, s2) /\
    generate_shares_and_commitments (init 7) 3 2 3 sample_tape
    = inr (shares, commitments, f_coeffs) /\
    length f_coeffs = Z.to_nat 2 /\ nth_error f_coeffs 0 = Some 3 /\
    length g_coeffs = Z.to_nat 2 /\ nth_error g_coeffs 0 = Some 0 /\
    length shares = Z.to_nat 3 /\
    (forall i, 1 <= i <= 3 ->
               nth_error shares (Z.to_nat (i - 1))
               = Some (evaluate_polynomial (init 7) f_coeffs i,
                       evaluate_polynomial (init 7) g_coeffs i)) /\
    length commitments = Z.to_nat 2 /\
    (forall j, 0 <= j < 2 ->
               exists f_j g_j,
                 nth_error f_coeffs (Z.to_nat j) = Some f_j /\
                 nth_error g_coeffs (Z.to_nat j) = Some g_j /\
                 nth_error commitments (Z.to_nat j)
                 = Some ((g (init 7) ^ f_j * h (init 7) ^ g_j) mod p (init 7))).
Proof.
  apply (generation_structure (init 7) 3 2 3 sample_tape).
  - reflexivity.
  - lia.
  - exact sample_tape_below.
  - lia.
  - lia.
Defined.

Lemma run_tape_below : draws_below default_prime run_tape.
Proof.
  intro k. unfold run_tape, default_prime.
  destruct k as [|[|[|k]]]; split; try (now apply Z.leb_le); now apply Z.ltb_lt.
Qed.

(** C5 as stated fails: with [threshold = 0 < 1], and with
    [num_shares = 2 < threshold = 3], the method returns shares and
    commitments. *)
Lemma generate_accepts_bad_parameters :
  let vss := init default_prime in
  (0 < 1 /\
   generate_shares_and_commitments vss 42 0 2 run_tape
   = inr ([(42, 0); (42, 0)], [], [42])) /\
  (2 < 3 /\
   exists shares commitments f_coeffs,
     generate_shares_and_commitments vss 42 3 2 run_tape
     = inr (shares, commitments, f_coeffs) /\
     length shares = 2%nat /\ length commitments = 3%nat).
Proof.
  cbv zeta. split; split; try lia.
  - vm_compute. reflexivity.
  - eexists _, _, _. split; [vm_compute; reflexivity|]. split; reflexivity.
Qed.

(** C5, amended.  The method checks neither argument: for every secret,
    threshold and number of shares it returns [max(num_shares, 0)] shares,
    [max(threshold, 0)] commitments and the [max(threshold, 1)] coefficients
    of [f]. *)
Theorem generate_never_rejects (self : PedersenVSS.t) (secret t n : Z) (s : rng) :
  0 < p self ->
  exists shares commitments f_coeffs,
    generate_shares_and_commitments self secret t n s
    = inr (shares, commitments, f_coeffs) /\
    length shares = Z.to_nat n /\
    length commitments = Z.to_nat t /\
    length f_coeffs = Z.to_nat (Z.max 1 t).
Proof.
  intros _. eexists _, _, _. split; [apply generate_returns|].
  rewrite !length_map, !range_length, generate_polynomial_length.
  repeat split; f_equal; lia.
Qed.

Lemma generate_never_rejects_witness :
  exists shares commitments f_coeffs,
    generate_shares_and_commitments (init 7) 3 0 2 sample_tape
    = inr (shares, commitments, f_coeffs) /\
    length shares = Z.to_nat 2 /\
    length commitments = Z.to_nat 0 /\
    length f_coeffs = Z.to_nat (Z.max 1 0).
Proof. apply (generate_never_rejects (init 7) 3 0 2 sample_tape). reflexivity. Defined.

(** C1.  On the default prime, with secret 42, threshold 3 and 5 shares, the
    honestly generated share of trustee 2 is rejected by [verify_share]:
    shares are reduced modulo [p], exponents of [g] and [h] live modulo
    [p - 1]. *)
Theorem honest_share_rejected :
  let vss := init default_prime in
  exists shares commitments f_coeffs share_2,
    generate_shares_and_commitments vss 42 3 5 run_tape
    = inr (shares, commitments, f_coeffs) /\
    nth_error shares 1 = Some share_2 /\
    verify_share vss 2 share_2 commitments 3 = inr false.
Proof.
  cbv zeta. eexists _, _, _, _.
  split; [vm_compute; reflexivity|].
  split; [reflexivity|]. vm_compute. reflexivity.
Qed.

(** C3.  With fewer than [threshold] shares the reconstruction raises the
    insufficient-shares error. *)
Theorem lagrange_interpolation_insufficient
  (self : PedersenVSS.t) (shares : list revealed) (threshold : Z) :
  Z.of_nat (length shares) < threshold ->
  lagrange_interpolation self shares threshold = inl InsufficientSharesError.
Proof.
  intro H. unfold lagrange_interpolation.
  rewrite (proj2 (Z.ltb_lt _ _) H). reflexivity.
Qed.

Lemma lagrange_interpolation_insufficient_witness :
  lagrange_interpolation (init default_prime) [(1, (10, 20)); (3, (30, 40))] 3
  = inl InsufficientSharesError.
Proof.
  apply (lagrange_interpolation_insufficient
           (init default_prime) [(1, (10, 20)); (3, (30, 40))] 3).
  reflexivity.
Defined.

(** C10.  With fewer revealed shares than the will's threshold,
    [reconstruct_secret] returns [(False, 0)], raises nothing and leaves
    [will_data] unchanged. *)
Theorem reconstruct_secret_too_few
  (sha256_hexdigest : list Z -> string) (self : CryptoWill.t)
  (w : CryptoWill.will_data) (revealed_shares : list revealed) :
  Z.of_nat (length revealed_shares) < CryptoWill.threshold w ->
  CryptoWill.reconstruct_secret sha256_hexdigest self w revealed_shares
  = (inr (false, 0), w).
Proof.
  intro H. unfold CryptoWill.reconstruct_secret.
  rewrite (proj2 (Z.ltb_lt _ _) H). reflexivity.
Qed.

Lemma reconstruct_secret_too_few_witness :
  CryptoWill.reconstruct_secret (fun _ => "00"%string)
    (CryptoWill.init default_prime) sample_will [(1, (10, 20)); (3, (30, 40))]
  = (inr (false, 0), sample_will).
Proof.
  apply (reconstruct_secret_too_few (fun _ => "00"%string)
           (CryptoWill.init default_prime) sample_will
           [(1, (10, 20)); (3, (30, 40))]).
  reflexivity.
Defined.

(** ** Reconstruction: failures *)

Section LagrangeFailure.

Variable self : PedersenVSS.t.
Hypothesis p_gt_1 : 1 < p self.

Variables (i : nat) (x_i : Z).

Lemma denominator_stays_zero (l : list (nat * revealed)) :
  forall numerator,
    snd (fold_left (lagrange_terms_step self i x_i) l (numerator, 0)) = 0.
Proof.
  induction l as [|[j [x_j s_j]] l IH]; intro numerator; [reflexivity|].
  cbn [fold_left lagrange_terms_step].
  destruct (negb (Nat.eqb i j)); [|apply IH].
  rewrite Z.mul_0_l, Z.mod_0_l by lia. apply IH.
Qed.

Lemma denominator_zero_factor (l : list (nat * revealed)) (j : nat) (s_j : Z * Z) :
  In (j, (x_i, s_j)) l -> j <> i ->
  forall acc, snd (fold_left (lagrange_terms_step self i x_i) l acc) = 0.
Proof.
  intros H N. induction l as [|e l IH]; [contradiction|].
  intros [numerator denominator]. destruct H as [->|H].
  - cbn [fold_left lagrange_terms_step].
    destruct (Nat.eqb_spec i j); [congruence|]. cbn [negb].
    rewrite Z.sub_diag, Z.mul_0_r, Z.mod_0_l by lia.
    apply denominator_stays_zero.
  - cbn [fold_left]. apply IH, H.
Qed.

End LagrangeFailure.

Lemma lagrange_loop_fails (self : PedersenVSS.t) (shares : list revealed) :
  0 < p self ->
  forall todo secret,
    (exists i x_i s_i,
        In (i, (x_i, s_i)) todo /\
        Z.gcd (snd (lagrange_terms self shares i x_i)) (p self) <> 1) ->
    lagrange_loop self shares todo secret = inl DomainError.
Proof.
  intros Hp todo. induction todo as [|[i0 [x0 [f0 g0]]] todo IH];
    intros secret (i & x_i & s_i & Hin & Hg); [contradiction|].
  cbn [lagrange_loop].
  destruct (lagrange_terms self shares i0 x0) as [numerator denominator] eqn:E.
  destruct (Z.eq_dec (Z.gcd denominator (p self)) 1) as [G|G].
  - destruct (mod_inverse_ok denominator (p self) Hp G) as (inv & -> & _).
    cbn [bind]. apply IH. exists i, x_i, s_i. split; [|exact Hg].
    destruct Hin as [Heq|Hin]; [|exact Hin].
    inversion Heq; subst. rewrite E in Hg. contradiction.
  - rewrite (mod_inverse_error denominator (p self) Hp G). reflexivity.
Qed.

(** C4.  When two of the first [threshold] shares carry the same index, the
    reconstruction raises the DomainError of the missing modular inverse. *)
Theorem lagrange_interpolation_duplicate_index
  (self : PedersenVSS.t) (shares : list revealed) (threshold : Z)
  (a b : nat) (x : Z) (s_a s_b : Z * Z) :
  1 < p self ->
  threshold <= Z.of_nat (length shares) ->
  a <> b -> Z.of_nat a < threshold -> Z.of_nat b < threshold ->
  nth_error shares a = Some (x, s_a) ->
  nth_error shares b = Some (x, s_b) ->
  lagrange_interpolation self shares threshold = inl DomainError.
Proof.
  intros Hp Hlen Hab Ha Hb Ea Eb. unfold lagrange_interpolation.
  destruct (Z.ltb_spec (Z.of_nat (length shares)) threshold); [lia|].
  rewrite slice_to_firstn by lia.
  set (sel := firstn (Z.to_nat threshold) shares).
  assert (Sa : nth_error sel a = Some (x, s_a)).
  { unfold sel. rewrite nth_error_firstn.
    destruct (Nat.ltb_spec a (Z.to_nat threshold)); [exact Ea|lia]. }
  assert (Sb : nth_error sel b = Some (x, s_b)).
  { unfold sel. rewrite nth_error_firstn.
    destruct (Nat.ltb_spec b (Z.to_nat threshold)); [exact Eb|lia]. }
  apply lagrange_loop_fails; [lia|].
  exists a, x, s_a. split; [apply enumerate_In, Sa|].
  unfold lagrange_terms.
  rewrite (denominator_zero_factor self Hp a x (enumerate sel) b s_b);
    [|apply enumerate_In, Sb|congruence].
  rewrite Z.gcd_0_l. lia.
Qed.

Lemma lagrange_interpolation_duplicate_index_witness :
  lagrange_interpolation (init default_prime)
    [(1, (10, 20)); (3, (30, 40)); (1, (10, 20))] 3
  = inl DomainError.
Proof.
  apply (lagrange_interpolation_duplicate_index (init default_prime)
           [(1, (10, 20)); (3, (30, 40)); (1, (10, 20))] 3
           0%nat 2%nat 1 (10, 20) (10, 20)).
  - reflexivity.
  - cbn. lia.
  - discriminate.
  - reflexivity.
  - reflexivity.
  - reflexivity.
  - reflexivity.
Defined.

(** ** Polynomials over the integers *)

Section Polynomials.

Lemma peval_padd a : forall b x, peval (padd a b) x = peval a x + peval b x.
Proof.
  induction a as [|c a IH]; intros [|d b] x; cbn [padd peval]; try ring.
  rewrite IH. ring.
Qed.

Lemma length_padd a : forall b, length (padd a b) = Nat.max (length a) (length b).
Proof.
  induction a as [|c a IH]; intros [|d b]; cbn [padd length]; try reflexivity.
  rewrite IH. reflexivity.
Qed.

Lemma peval_pscale c a x : peval (pscale c a) x = c * peval a x.
Proof.
  induction a as [|d a IH]; cbn [pscale map peval]; [ring|].
  fold (pscale c a). rewrite IH. ring.
Qed.

Lemma length_pscale c a : length (pscale c a) = length a.
Proof. apply length_map. Qed.

Lemma peval_pmul_lin r a x : peval (pmul_lin r a) x = (x - r) * peval a x.
Proof.
  unfold pmul_lin. rewrite peval_padd, peval_pscale.
  cbn [peval]. ring.
Qed.

Lemma length_pmul_lin r a : length (pmul_lin r a) = S (length a).
Proof.
  unfold pmul_lin. rewrite length_padd, length_pscale. cbn [length]. lia.
Qed.

Lemma peval_pprod_lin rs x :
  peval (pprod_lin rs) x = zprod (map (fun r => x - r) rs).
Proof.
  induction rs as [|r rs IH]; cbn [pprod_lin fold_right map zprod].
  - cbn [peval]. ring.
  - fold (pprod_lin rs). rewrite peval_pmul_lin, IH. reflexivity.
Qed.

Lemma length_pprod_lin rs : length (pprod_lin rs) = S (length rs).
Proof.
  induction rs as [|r rs IH]; [reflexivity|].
  cbn [pprod_lin fold_right]. fold (pprod_lin rs).
  rewrite length_pmul_lin, IH. reflexivity.
Qed.

Lemma peval_psum ps x : peval (psum ps) x = zsum (map (fun q => peval q x) ps).
Proof.
  induction ps as [|q ps IH]; [reflexivity|].
  cbn [psum fold_right map zsum]. fold (psum ps).
  rewrite peval_padd, IH. reflexivity.
Qed.

Lemma length_psum ps (k : nat) :
  (forall q, In q ps -> (length q <= k)%nat) -> (length (psum ps) <= k)%nat.
Proof.
  induction ps as [|q ps IH]; intro H; [cbn; lia|].
  cbn [psum fold_right]. fold (psum ps). rewrite length_padd.
  apply Nat.max_lub; [apply H; now left|]. apply IH. intros; apply H; now right.
Qed.

Lemma pdiv_lin_spec a q :
  (forall x, peval q x = snd (pdiv_lin a q) + (x - a) * peval (fst (pdiv_lin a q)) x)
  /\ length (fst (pdiv_lin a q)) = pred (length q).
Proof.
  induction q as [|c cs [IH1 IH2]]; [split; [intro; cbn; ring|reflexivity]|].
  cbn [pdiv_lin]. destruct cs as [|d cs].
  - split; [intro; cbn; ring|reflexivity].
  - destruct (pdiv_lin a (d :: cs)) as [q' r']. cbn [fst snd] in *.
    split.
    + intro x. change (peval (c :: d :: cs) x) with (c + x * peval (d :: cs) x).
      rewrite IH1. cbn [peval]. ring.
    + cbn [length] in *. lia.
Qed.

End Polynomials.

(** ** A polynomial with more roots than coefficients vanishes *)

Section Roots.

Variable m : Z.
Hypothesis m_prime : Z.prime m.

Lemma roots_bound (xs : list Z) :
  forall q,
    distinct_mod m xs ->
    (length q <= length xs)%nat ->
    (forall x, In x xs -> (m | peval q x)) ->
    forall z, (m | peval q z).
Proof.
  induction xs as [|a xs IH]; intros q D L R z.
  - destruct q; [|cbn in L; lia]. apply Z.divide_0_r.
  - destruct D as [Da D].
    destruct (pdiv_lin_spec a q) as [E Lq].
    destruct (pdiv_lin a q) as [q' r]. cbn [fst snd] in *.
    assert (Hr : (m | r)).
    { specialize (R a (or_introl eq_refl)). rewrite E in R.
      replace (r + (a - a) * peval q' a) with r in R by ring. exact R. }
    rewrite E. apply Z.divide_add_r; [exact Hr|].
    apply Z.divide_mul_r. apply IH; [exact D|cbn [length] in L; lia|].
    intros x Hx. specialize (R x (or_intror Hx)). rewrite E in R.
    assert (Hm : (m | (x - a) * peval q' x)).
    { replace ((x - a) * peval q' x) with (r + (x - a) * peval q' x - r) by ring.
      apply Z.divide_sub_r; assumption. }
    apply Z.divide_prime_mul in Hm; [|exact m_prime].
    destruct Hm as [Hm|Hm]; [|exact Hm]. exfalso. exact (Da x Hx Hm).
Qed.

End Roots.

(** ** Sums, products and congruences *)

#[export] Instance eqm_equivalence (m : Z) : Equivalence (eqm m) := eqm_setoid m.

#[export] Instance add_eqm (m : Z) : Proper (eqm m ==> eqm m ==> eqm m) Z.add :=
  Zplus_eqm m.

#[export] Instance sub_eqm (m : Z) : Proper (eqm m ==> eqm m ==> eqm m) Z.sub :=
  Zminus_eqm m.

#[export] Instance mul_eqm (m : Z) : Proper (eqm m ==> eqm m ==> eqm m) Z.mul :=
  Zmult_eqm m.

Ltac eqm_ring :=
  match goal with
  | |- eqm _ ?a ?b => replace a with b by ring; reflexivity
  end.

Section Congruence.

Variable m : Z.

Lemma zsum_cons (x : Z) (l : list Z) : zsum (x :: l) = x + zsum l.
Proof. reflexivity. Qed.

Lemma zprod_cons (x : Z) (l : list Z) : zprod (x :: l) = x * zprod l.
Proof. reflexivity. Qed.

Lemma eqm_divide a b : m <> 0 -> eqm m a b <-> (m | a - b).
Proof.
  intro H. unfold eqm. rewrite Z.cong_iff_0. apply Z.mod_divide, H.
Qed.

Lemma zsum_eqm {A : Type} (F G : A -> Z) (l : list A) :
  (forall e, In e l -> eqm m (F e) (G e)) ->
  eqm m (zsum (map F l)) (zsum (map G l)).
Proof.
  induction l as [|e l IH]; intro H; [reflexivity|].
  cbn [map zsum fold_right]. fold (zsum (map F l)) (zsum (map G l)).
  rewrite (H e (or_introl eq_refl)), IH by (intros; apply H; now right).
  reflexivity.
Qed.

Lemma zsum_single {A : Type} (F : A -> Z) (l : list A) (e0 : A) :
  NoDup l -> In e0 l -> (forall e, In e l -> e <> e0 -> F e = 0) ->
  zsum (map F l) = F e0.
Proof.
  induction 1 as [|e l Hn Hd IH]; intros Hin Hz; [contradiction|].
  cbn [map zsum fold_right]. fold (zsum (map F l)).
  destruct Hin as [->|Hin].
  - assert (Z0 : zsum (map F l) = 0).
    { clear IH Hd. induction l as [|e l IH]; [reflexivity|].
      cbn [map zsum fold_right]. fold (zsum (map F l)).
      rewrite IH.
      - rewrite (Hz e); [reflexivity|right; now left|].
        intros ->. apply Hn. now left.
      - intro H. apply Hn. now right.
      - intros e' [->|H'] N; apply Hz; auto; right; now right. }
    lia.
  - rewrite IH by (auto; intros; apply Hz; auto; now right).
    rewrite (Hz e); [lia|now left|]. intros ->. contradiction.
Qed.

Lemma zprod_zero (l : list Z) : In 0 l -> zprod l = 0.
Proof.
  induction l as [|x l IH]; [contradiction|].
  cbn [zprod fold_right]. fold (zprod l). intros [->|H]; [lia|].
  rewrite IH by exact H. lia.
Qed.

Hypothesis m_prime : Z.prime m.

Lemma zprod_not_divide (l : list Z) :
  (forall x, In x l -> ~ (m | x)) -> ~ (m | zprod l).
Proof.
  induction l as [|x l IH]; intro H.
  - cbn. intro D. apply Z.divide_1_r in D. destruct m_prime. lia.
  - cbn [zprod fold_right]. fold (zprod l). intro D.
    apply Z.divide_prime_mul in D; [|exact m_prime].
    destruct D as [D|D].
    + exact (H x (or_introl eq_refl) D).
    + apply IH; [|exact D]. intros; apply H; now right.
Qed.

Lemma distinct_mod_nth (xs : list Z) :
  distinct_mod m xs ->
  forall i j a b,
    nth_error xs i = Some a -> nth_error xs j = Some b -> i <> j ->
    ~ (m | a - b).
Proof.
  induction xs as [|x xs IH]; intros D i j a b Ei Ej N.
  - destruct i; discriminate.
  - destruct D as [Dx D].
    destruct i as [|i], j as [|j]; cbn [nth_error] in Ei, Ej.
    + congruence.
    + inversion Ei; subst. apply nth_error_In in Ej. intro H.
      apply (Dx b Ej). apply Z.divide_opp_r in H.
      replace (b - a) with (- (a - b)) by ring. exact H.
    + inversion Ej; subst. apply nth_error_In in Ei. exact (Dx a Ei).
    + apply (IH D i j); auto.
Qed.

Lemma NoDup_distinct_mod (xs : list Z) :
  NoDup xs -> (forall x, In x xs -> 1 <= x <= m) -> distinct_mod m xs.
Proof.
  induction 1 as [|x xs Hn Hd IH]; intro R; cbn [distinct_mod]; [exact I|].
  split; [|apply IH; intros; apply R; now right].
  intros y Hy D.
  pose proof (R x (or_introl eq_refl)). pose proof (R y (or_intror Hy)).
  assert (y <> x) by (intros ->; contradiction).
  destruct D as [k Hk].
  destruct (Z.lt_trichotomy k 0) as [K|[K|K]]; nia.
Qed.

End Congruence.

Lemma filter_length_lt {A : Type} (f : A -> bool) (l : list A) (a : A) :
  In a l -> f a = false -> (length (filter f l) < length l)%nat.
Proof.
  induction l as [|b l IH]; [contradiction|]. intros [->|H] Hf; cbn [filter length].
  - rewrite Hf. pose proof (filter_length_le f l). lia.
  - specialize (IH H Hf). destruct (f b); cbn [length]; lia.
Qed.

Lemma enumerate_length {A : Type} (l : list A) : length (enumerate l) = length l.
Proof. unfold enumerate. rewrite length_combine, length_seq. lia. Qed.

(** ** Reconstruction: Lagrange interpolation at zero *)

Section Interpolation.

Variable self : PedersenVSS.t.
Hypothesis p_prime : Z.prime (p self).

Variable sel : list revealed.
Hypothesis sel_distinct : distinct_mod (p self) (map fst sel).

Lemma p_prime_pos : 0 < p self.
Proof. destruct p_prime. lia. Qed.

Lemma lagrange_terms_fold (i : nat) (x_i : Z) (l : list (nat * revealed)) :
  forall n0 d0,
    eqm (p self)
        (fst (fold_left (lagrange_terms_step self i x_i) l (n0, d0)))
        (n0 * zprod (map (fun x_j => 0 - x_j)
                         (map (fun e : nat * revealed => fst (snd e))
                              (filter (fun e : nat * revealed => negb (Nat.eqb i (fst e))) l))))
    /\
    eqm (p self)
        (snd (fold_left (lagrange_terms_step self i x_i) l (n0, d0)))
        (d0 * zprod (map (fun x_j => x_i - x_j)
                         (map (fun e : nat * revealed => fst (snd e))
                              (filter (fun e : nat * revealed => negb (Nat.eqb i (fst e))) l)))).
Proof.
  induction l as [|[j [x_j s_j]] l IH]; intros n0 d0;
    cbn [fold_left filter map fst snd lagrange_terms_step].
  - cbn [zprod fold_right]. rewrite !Z.mul_1_r. split; reflexivity.
  - destruct (Nat.eqb i j); cbn [negb]; [apply IH|].
    cbn [map fst snd]. rewrite !zprod_cons.
    destruct (IH ((n0 * - x_j) mod p self) ((d0 * (x_i - x_j)) mod p self))
      as [E1 E2].
    split.
    + rewrite E1, Zmod_eqm. eqm_ring.
    + rewrite E2, Zmod_eqm. eqm_ring.
Qed.

Lemma lagrange_terms_spec (i : nat) (x_i : Z) :
  eqm (p self) (fst (lagrange_terms self sel i x_i))
      (zprod (map (fun x_j => 0 - x_j) (others sel i))) /\
  eqm (p self) (snd (lagrange_terms self sel i x_i))
      (zprod (map (fun x_j => x_i - x_j) (others sel i))).
Proof.
  unfold lagrange_terms, others.
  destruct (lagrange_terms_fold i x_i (enumerate sel) 1 1) as [E1 E2].
  rewrite Z.mul_1_l in E1, E2. split; assumption.
Qed.

Lemma others_In (x : Z) (i : nat) :
  In x (others sel i) <->
  exists j s, nth_error sel j = Some (x, s) /\ j <> i.
Proof.
  unfold others. rewrite in_map_iff. split.
  - intros ([j [x' s]] & E & H). cbn [fst snd] in E. subst x'.
    apply filter_In in H. destruct H as [H1 H2]. apply enumerate_In in H1.
    exists j, s. split; [exact H1|]. cbn [fst] in H2.
    destruct (Nat.eqb_spec i j); [discriminate|congruence].
  - intros (j & s & H & N). exists (j, (x, s)). split; [reflexivity|].
    apply filter_In. split; [apply enumerate_In, H|]. cbn [fst].
    destruct (Nat.eqb_spec i j); [congruence|reflexivity].
Qed.

Lemma length_others (i : nat) (e : revealed) :
  nth_error sel i = Some e -> (length (others sel i) < length sel)%nat.
Proof.
  intro H. unfold others. rewrite length_map, <- (enumerate_length sel).
  apply filter_length_lt with (a := (i, e)); [apply enumerate_In, H|].
  cbn [fst]. rewrite Nat.eqb_refl. reflexivity.
Qed.

Lemma denominator_coprime (i : nat) (x_i : Z) (s_i : Z * Z) :
  nth_error sel i = Some (x_i, s_i) ->
  Z.gcd (snd (lagrange_terms self sel i x_i)) (p self) = 1.
Proof.
  intro H. destruct (lagrange_terms_spec i x_i) as [_ E]. unfold eqm in E.
  rewrite <- Z.gcd_mod_l, E, Z.gcd_mod_l, Z.gcd_comm.
  apply Z.coprime_prime_l; [exact p_prime|].
  apply zprod_not_divide; [exact p_prime|].
  intros d Hd. apply in_map_iff in Hd. destruct Hd as (x_j & <- & Hj).
  apply others_In in Hj. destruct Hj as (j & s_j & Ej & N).
  apply (distinct_mod_nth (p self) (map fst sel) sel_distinct i j).
  - rewrite nth_error_map, H. reflexivity.
  - rewrite nth_error_map, Ej. reflexivity.
  - congruence.
Qed.

Lemma inverse_or_zero_spec (d : Z) :
  Z.gcd d (p self) = 1 ->
  mod_inverse d (p self) = inr (inverse_or_zero d (p self)) /\
  eqm (p self) (d * inverse_or_zero d (p self)) 1.
Proof.
  intro G. destruct (mod_inverse_ok d (p self) p_prime_pos G) as (x & E & _ & M).
  unfold inverse_or_zero. rewrite E. split; [reflexivity|exact M].
Qed.

Lemma lagrange_loop_sum (todo : list (nat * revealed)) :
  (forall e, In e todo -> In e (enumerate sel)) ->
  forall s0,
  exists r,
    lagrange_loop self sel todo s0 = inr r /\
    eqm (p self) r (s0 + zsum (map (lagrange_term self sel) todo)) /\
    (0 <= s0 < p self -> 0 <= r < p self).
Proof.
  induction todo as [|[i [x_i [f_i g_i]]] todo IH]; intros Hsub s0.
  - exists s0. cbn. rewrite Z.add_0_r. repeat split; auto; lia.
  - cbn [lagrange_loop map zsum fold_right]. fold (zsum (map (lagrange_term self sel) todo)).
    unfold lagrange_term at 1.
    assert (Hnth : nth_error sel i = Some (x_i, (f_i, g_i)))
      by (apply enumerate_In, Hsub; now left).
    pose proof (denominator_coprime i x_i _ Hnth) as G.
    destruct (lagrange_terms self sel i x_i) as [numerator denominator].
    cbn [snd] in G.
    destruct (inverse_or_zero_spec denominator G) as [E _]. rewrite E.
    cbn [bind].
    destruct (IH (fun e H => Hsub e (or_intror H))
                ((s0 + f_i * ((numerator * inverse_or_zero denominator (p self))
                               mod p self)) mod p self))
      as (r & Er & Cr & Br).
    exists r. split; [exact Er|]. split.
    + rewrite Cr, Zmod_eqm, Z.add_assoc. reflexivity.
    + intros _. apply Br, Z.mod_pos_bound, p_prime_pos.
Qed.

Variable cs : list Z.
Hypothesis cs_length : (length cs <= length sel)%nat.
Hypothesis sel_values :
  forall i x f g, nth_error sel i = Some (x, (f, g)) -> eqm (p self) f (peval cs x).

Lemma lagrange_term_scalar (e : nat * revealed) :
  In e (enumerate sel) ->
  eqm (p self) (lagrange_term self sel e)
      (lagrange_scalar self sel e
       * zprod (map (fun x_j => 0 - x_j) (others sel (fst e)))).
Proof.
  intros _. destruct e as [i [x_i [f_i g_i]]].
  unfold lagrange_term, lagrange_scalar. cbn [fst].
  destruct (lagrange_terms_spec i x_i) as [E _].
  destruct (lagrange_terms self sel i x_i) as [numerator denominator].
  cbn [fst snd] in *. rewrite Zmod_eqm, E. eqm_ring.
Qed.

Lemma peval_interpolant (x : Z) :
  peval (interpolant self sel) x
  = zsum (map (fun e => lagrange_scalar self sel e
                        * zprod (map (fun x_j => x - x_j) (others sel (fst e))))
              (enumerate sel)).
Proof.
  unfold interpolant. rewrite peval_psum, map_map. f_equal.
  apply map_ext. intro e. rewrite peval_pscale, peval_pprod_lin. reflexivity.
Qed.

Lemma length_interpolant : (length (interpolant self sel) <= length sel)%nat.
Proof.
  apply length_psum. intros q Hq. apply in_map_iff in Hq.
  destruct Hq as ([i e] & <- & Hin). apply enumerate_In in Hin.
  rewrite length_pscale, length_pprod_lin. cbn [fst].
  pose proof (length_others i e Hin). lia.
Qed.

Lemma interpolant_at_node (k : nat) (x f g : Z) :
  nth_error sel k = Some (x, (f, g)) ->
  eqm (p self) (peval (interpolant self sel) x) (peval cs x).
Proof.
  intro H. rewrite peval_interpolant.
  rewrite (zsum_single _ (enumerate sel) (k, (x, (f, g)))).
  - unfold lagrange_scalar. cbn [fst].
    destruct (lagrange_terms_spec k x) as [_ E].
    destruct (inverse_or_zero_spec _ (denominator_coprime k x _ H)) as [_ I].
    rewrite <- E.
    transitivity (f * (snd (lagrange_terms self sel k x)
                       * inverse_or_zero (snd (lagrange_terms self sel k x)) (p self)));
      [eqm_ring|].
    rewrite I, Z.mul_1_r. apply (sel_values k x f g H).
  - apply enumerate_NoDup.
  - apply enumerate_In, H.
  - intros [i [x_i s_i]] Hin Hne. cbn [fst].
    rewrite zprod_zero; [ring|]. apply in_map_iff. exists x. split; [ring|].
    apply others_In. exists k, (f, g). split; [exact H|].
    intros ->. apply Hne. apply enumerate_In in Hin. congruence.
Qed.

Lemma interpolation_identity :
  eqm (p self) (zsum (map (lagrange_term self sel) (enumerate sel))) (peval cs 0).
Proof.
  rewrite (zsum_eqm (p self) _ _ _ lagrange_term_scalar), <- peval_interpolant.
  pose proof p_prime_pos as Hp.
  apply eqm_divide; [lia|].
  replace (peval (interpolant self sel) 0 - peval cs 0)
    with (peval (padd (interpolant self sel) (pscale (-1) cs)) 0)
    by (rewrite peval_padd, peval_pscale; ring).
  apply roots_bound with (xs := map fst sel);
    [exact p_prime|exact sel_distinct| |].
  - rewrite length_padd, length_pscale, length_map.
    apply Nat.max_lub; [apply length_interpolant|exact cs_length].
  - intros x Hx. apply in_map_iff in Hx. destruct Hx as ([x' [f g]] & <- & Hin).
    cbn [fst]. apply In_nth_error in Hin. destruct Hin as [k Hk].
    rewrite peval_padd, peval_pscale.
    replace (peval (interpolant self sel) x' + -1 * peval cs x')
      with (peval (interpolant self sel) x' - peval cs x') by ring.
    apply eqm_divide; [lia|]. apply (interpolant_at_node k x' f g Hk).
Qed.

(** The loop returns the constant coefficient, reduced. *)
Lemma lagrange_loop_constant :
  lagrange_loop self sel (enumerate sel) 0 = inr (peval cs 0 mod p self).
Proof.
  pose proof p_prime_pos as Hp.
  destruct (lagrange_loop_sum (enumerate sel) (fun e H => H) 0)
    as (r & Er & Cr & Br).
  rewrite Er. f_equal. rewrite Z.add_0_l, interpolation_identity in Cr.
  unfold eqm in Cr. rewrite <- Cr. symmetry. apply Z.mod_small, Br. lia.
Qed.

End Interpolation.

Lemma prime_7 : Z.prime 7.
Proof.
  split; [lia|]. intros n Hn [k Hk].
  assert (C : n = 2 \/ n = 3 \/ n = 4 \/ n = 5 \/ n = 6) by lia.
  destruct C as [->|[->|[->|[->| ->]]]]; lia.
Qed.

(** C2 as stated fails: over the prime 7, with 8 shares, the shares of
    trustees 1 and 8 have indices congruent modulo 7 and their
    reconstruction raises instead of returning the secret 3. *)
Lemma reconstruct_fails_beyond_modulus :
  let vss := init 7 in
  Z.prime 7 /\ 0 <= 3 < 7 /\ 1 <= 2 <= 8 /\
  exists shares commitments f_coeffs share_1 share_8,
    generate_shares_and_commitments vss 3 2 8 sample_tape
    = inr (shares, commitments, f_coeffs) /\
    nth_error shares 0 = Some share_1 /\
    nth_error shares 7 = Some share_8 /\
    lagrange_interpolation vss [(1, share_1); (8, share_8)] 2 = inl DomainError.
Proof.
  cbv zeta. split; [exact prime_7|]. split; [lia|]. split; [lia|].
  eexists _, _, _, _, _. split; [vm_compute; reflexivity|].
  split; [reflexivity|]. split; [reflexivity|]. vm_compute. reflexivity.
Qed.

(** C2, amended.  Over a prime [p], for a secret in [[0, p)], a threshold
    [t >= 1] and [t <= n <= p] shares, every list of [t] generated shares
    with pairwise different indices, in any order, reconstructs the secret. *)
Theorem reconstruct_round_trip
  (self : PedersenVSS.t) (secret t n : Z) (s : rng)
  (shares : list (Z * Z)) (commitments f_coeffs : list Z) (sel : list revealed) :
  Z.prime (p self) -> 0 <= secret < p self ->
  1 <= t -> t <= n -> n <= p self ->
  generate_shares_and_commitments self secret t n s
  = inr (shares, commitments, f_coeffs) ->
  length sel = Z.to_nat t ->
  NoDup (map fst sel) ->
  (forall x sh, In (x, sh) sel ->
                1 <= x <= n /\ nth_error shares (Z.to_nat (x - 1)) = Some sh) ->
  lagrange_interpolation self sel t = inr secret.
Proof.
  intros Hp Hs Ht Htn Hnp Hgen Hlen Hnd Hsel.
  pose proof (p_prime_pos self Hp) as Hpos.
  pose proof (generate_returns self secret t n s) as R. cbv zeta in R.
  rewrite R in Hgen. clear R. inversion Hgen as [[Hshares Hcomm Hf]].
  clear Hgen Hcomm.
  pose proof (generate_polynomial_coeffs self secret t s) as Hcs.
  pose proof (generate_polynomial_length self secret t s) as Hcl.
  rewrite Hf in Hshares, Hcs, Hcl.
  unfold lagrange_interpolation.
  destruct (Z.ltb_spec (Z.of_nat (length sel)) t); [lia|].
  rewrite slice_to_all by lia.
  rewrite (lagrange_loop_constant self Hp sel) with (cs := f_coeffs).
  - f_equal. rewrite Hcs. cbn [peval]. rewrite Z.mul_0_l, Z.add_0_r.
    apply Z.mod_small, Hs.
  - apply NoDup_distinct_mod; [exact Hnd|].
    intros x Hx. apply in_map_iff in Hx. destruct Hx as ([x' sh] & <- & Hin).
    cbn [fst]. destruct (Hsel x' sh Hin). lia.
  - lia.
  - intros i x f g Hi. apply nth_error_In in Hi.
    destruct (Hsel x (f, g) Hi) as [Hx Hn]. rewrite <- Hshares in Hn.
    rewrite nth_error_map, range_nth_error in Hn by lia.
    replace (1 + Z.of_nat (Z.to_nat (x - 1))) with x in Hn by lia.
    unfold option_map in Hn. injection Hn as Ef Eg.
    rewrite <- Ef.
    rewrite evaluate_polynomial_peval by exact Hpos.
    unfold eqm. apply Z.mod_mod. lia.
Qed.

Lemma reconstruct_round_trip_witness :
  lagrange_interpolation (init 7) [(3, (4, 1)); (1, (1, 5))] 2 = inr 3.
Proof.
  apply (reconstruct_round_trip (init 7) 3 2 3 sample_tape
           [(1, 5); (6, 3); (4, 1)] [1; 6] [3; 5]).
  - exact prime_7.
  - cbn. lia.
  - lia.
  - lia.
  - cbn. lia.
  - reflexivity.
  - reflexivity.
  - repeat constructor; cbn; intuition discriminate.
  - intros x sh [E|[E|[]]]; inversion E; subst; split; cbn; try lia; reflexivity.
Defined.

(** * Further properties of the code *)

(** ** Field arithmetic *)

(** X1.  For a positive modulus, [pow_mod] returns [base^exp mod mod_], a
    value of [[0, mod_)], as soon as the exponent is positive or the modulus
    exceeds 1. *)
Theorem pow_mod_power (base exp m : Z) :
  0 < m -> 0 <= exp -> 0 < exp \/ 1 < m ->
  pow_mod base exp m = base ^ exp mod m /\ 0 <= pow_mod base exp m < m.
Proof.
  intros Hm He Hc.
  assert (E : pow_mod base exp m = base ^ exp mod m).
  { destruct Hc as [Hc|Hc].
    - apply pow_mod_pos; assumption.
    - apply pow_mod_spec; assumption. }
  split; [exact E|]. rewrite E. apply Z.mod_pos_bound, Hm.
Qed.

Lemma pow_mod_power_witness :
  pow_mod 3 5 7 = 3 ^ 5 mod 7 /\ 0 <= pow_mod 3 5 7 < 7.
Proof. apply (pow_mod_power 3 5 7); lia. Defined.

Lemma extended_gcd_bezout_bounded (n : nat) :
  forall a b, Z.abs a < Z.of_nat n ->
    a * snd (fst (extended_gcd a b)) + b * snd (extended_gcd a b)
    = fst (fst (extended_gcd a b)) /\
    Z.abs (fst (fst (extended_gcd a b))) = Z.gcd a b.
Proof.
  induction n as [|n IH]; intros a b Ha; [lia|].
  rewrite (extended_gcd_unfold a b).
  destruct (Z.eqb_spec a 0) as [->|Ha0].
  - cbn [fst snd]. split; [lia|]. symmetry. apply Z.gcd_0_l.
  - assert (B : Z.abs (b mod a) < Z.of_nat n).
    { destruct (Z.lt_total a 0) as [L|[L|L]]; [|contradiction|].
      - pose proof (Z.mod_neg_bound b a L). lia.
      - pose proof (Z.mod_pos_bound b a L). lia. }
    destruct (IH (b mod a) a B) as [L G].
    destruct (extended_gcd (b mod a) a) as [[g0 x1] y1]. cbn [fst snd] in *.
    split.
    + pose proof (Z.div_mod b a Ha0). nia.
    + rewrite G. apply Z.gcd_mod. exact Ha0.
Qed.

(** X2.  For all integers [a] and [b], the nested [extended_gcd] returns
    [(gcd, x, y)] with [a * x + b * y = gcd], and [gcd] is the greatest common
    divisor of [a] and [b] up to its sign. *)
Theorem extended_gcd_bezout (a b : Z) :
  let '(gcd, x, y) := extended_gcd a b in
  a * x + b * y = gcd /\ Z.abs gcd = Z.gcd a b.
Proof.
  pose proof (extended_gcd_bezout_bounded (S (Z.abs_nat a)) a b) as H.
  destruct (extended_gcd a b) as [[g0 x] y]. cbn [fst snd] in H.
  apply H. lia.
Qed.

Lemma extended_gcd_negative (n : nat) :
  forall a b, Z.abs a < Z.of_nat n -> a <= 0 -> b < 0 ->
              fst (fst (extended_gcd a b)) < 0.
Proof.
  induction n as [|n IH]; intros a b Ha La Lb; [lia|].
  rewrite (extended_gcd_unfold a b).
  destruct (Z.eqb_spec a 0) as [->|Ha0]; [exact Lb|].
  assert (L : a < 0) by lia.
  pose proof (Z.mod_neg_bound b a L) as B.
  specialize (IH (b mod a) a ltac:(lia) ltac:(lia) L).
  destruct (extended_gcd (b mod a) a) as [[g0 x1] y1]. exact IH.
Qed.

(** X3.  For a negative modulus [mod_inverse] raises the DomainError whatever
    the argument: the gcd computed by [extended_gcd] is then negative, never 1. *)
Theorem mod_inverse_negative_modulus (a m : Z) :
  m < 0 -> mod_inverse a m = inl DomainError.
Proof.
  intro Hm. unfold mod_inverse.
  pose proof (Z.mod_neg_bound a m Hm) as B.
  pose proof (extended_gcd_negative (S (Z.abs_nat (a mod m))) (a mod m) m
                ltac:(lia) ltac:(lia) Hm) as G.
  destruct (extended_gcd (a mod m) m) as [[g0 x] y]. cbn [fst] in G.
  destruct (Z.eqb_spec g0 1); [lia|reflexivity].
Qed.

Lemma mod_inverse_negative_modulus_witness :
  mod_inverse 3 (-7) = inl DomainError.
Proof. apply (mod_inverse_negative_modulus 3 (-7)). lia. Defined.

(** ** Polynomial evaluation *)

Lemma peval_eqm (m : Z) (coeffs : list Z) (x y : Z) :
  eqm m x y -> eqm m (peval coeffs x) (peval coeffs y).
Proof.
  intro H. induction coeffs as [|c cs IH]; cbn [peval]; [reflexivity|].
  rewrite IH, H. reflexivity.
Qed.

(** X4.  [evaluate_polynomial] only depends on [x] modulo [p]: shifting [x] by
    a multiple of [p] gives the same value, and at a multiple of [p] the value
    is the constant coefficient reduced (0 for the empty list). *)
Theorem evaluate_polynomial_periodic
  (self : PedersenVSS.t) (coeffs : list Z) (x k : Z) :
  0 < p self ->
  evaluate_polynomial self coeffs (x + k * p self)
  = evaluate_polynomial self coeffs x /\
  evaluate_polynomial self coeffs (k * p self) = nth 0 coeffs 0 mod p self.
Proof.
  intro Hp. rewrite !evaluate_polynomial_peval by exact Hp. split.
  - apply peval_eqm. unfold eqm. apply Z.mod_add. lia.
  - transitivity (peval coeffs 0 mod p self).
    + apply peval_eqm. unfold eqm. rewrite Z.mod_mul by lia. reflexivity.
    + destruct coeffs as [|c cs]; cbn [peval nth]; [reflexivity|].
      f_equal. ring.
Qed.

Lemma evaluate_polynomial_periodic_witness :
  evaluate_polynomial (init 7) [3; 5; 2] (4 + 2 * p (init 7))
  = evaluate_polynomial (init 7) [3; 5; 2] 4 /\
  evaluate_polynomial (init 7) [3; 5; 2] (2 * p (init 7))
  = nth 0 [3; 5; 2] 0 mod p (init 7).
Proof. apply (evaluate_polynomial_periodic (init 7) [3; 5; 2] 4 2). reflexivity. Defined.

(** ** The byte encoding hashed by [hash_secret] *)

Lemma from_bytes_big_digits (n : nat) :
  forall s acc,
    fold_left (fun acc b => acc * 256 + b)
      (map (fun k => (s / 2 ^ (8 * (Z.of_nat n - 1 - Z.of_nat k))) mod 256)
           (seq 0 n)) acc
    = acc * 256 ^ Z.of_nat n + s mod 256 ^ Z.of_nat n.
Proof.
  induction n as [|n IH]; intros s acc.
  - cbn [seq map fold_left]. change (256 ^ Z.of_nat 0) with 1.
    rewrite Z.mod_1_r. ring.
  - rewrite seq_S, map_app, fold_left_app. cbn [map fold_left Nat.add].
    rewrite (map_ext_in _
               (fun k => ((s / 256) / 2 ^ (8 * (Z.of_nat n - 1 - Z.of_nat k)))
                         mod 256)).
    + rewrite IH.
      replace (8 * (Z.of_nat (S n) - 1 - Z.of_nat n)) with 0 by lia.
      rewrite Z.pow_0_r, Z.div_1_r.
      rewrite Nat2Z.inj_succ, Z.pow_succ_r by lia.
      rewrite (Z.rem_mul_r s 256 (256 ^ Z.of_nat n)) by lia. ring.
    + intros k Hk. apply in_seq in Hk.
      replace (8 * (Z.of_nat (S n) - 1 - Z.of_nat k))
        with (8 + 8 * (Z.of_nat n - 1 - Z.of_nat k)) by lia.
      rewrite Z.pow_add_r by lia.
      rewrite Z.div_div by lia. reflexivity.
Qed.

(** X5.  For a secret of [[0, 2^256)] [hash_secret] hashes exactly 32 bytes,
    the big-endian encoding from which the secret is read back; for any other
    secret it raises OverflowError. *)
Theorem hash_secret_encoding (sha256_hexdigest : list Z -> string) (secret : Z) :
  (0 <= secret < 2 ^ 256 ->
   exists secret_bytes,
     hash_secret sha256_hexdigest secret = inr (sha256_hexdigest secret_bytes) /\
     length secret_bytes = 32%nat /\
     (forall b, In b secret_bytes -> 0 <= b < 256) /\
     from_bytes_big secret_bytes = secret) /\
  (~ 0 <= secret < 2 ^ 256 ->
   hash_secret sha256_hexdigest secret = inl OverflowError).
Proof.
  unfold hash_secret, to_bytes32. split; intro H.
  - destruct (Z.ltb_spec secret 0); [lia|].
    destruct (Z.leb_spec (2 ^ 256) secret); [lia|]. cbn [orb bind ret].
    eexists. split; [reflexivity|]. split; [|split].
    + rewrite length_map, length_seq. reflexivity.
    + intros b Hb. apply in_map_iff in Hb. destruct Hb as (k & <- & _).
      apply Z.mod_pos_bound. lia.
    + unfold from_bytes_big.
      rewrite (map_ext _
                 (fun k => (secret / 2 ^ (8 * (Z.of_nat 32 - 1 - Z.of_nat k)))
                           mod 256))
        by (intro k; do 3 f_equal; lia).
      rewrite from_bytes_big_digits. change (256 ^ Z.of_nat 32) with (2 ^ 256).
      rewrite Z.mod_small by lia. ring.
  - destruct (Z.ltb_spec secret 0); [reflexivity|].
    destruct (Z.leb_spec (2 ^ 256) secret); [reflexivity|]. lia.
Qed.

(** ** Share generation *)

(** X6.  [generate_polynomial] consumes exactly [threshold - 1] draws and
    returns [max(threshold, 1)] coefficients, the secret first; for a secret
    of [[0, p)] every coefficient is a field element. *)
Theorem generate_polynomial_field
  (self : PedersenVSS.t) (secret threshold : Z) (s : rng) :
  0 <= secret < p self -> draws_below (p self) s ->
  let (coefficients, s') := generate_polynomial self secret threshold s in
  length coefficients = Z.to_nat (Z.max 1 threshold) /\
  nth_error coefficients 0 = Some secret /\
  (forall c, In c coefficients -> 0 <= c < p self) /\
  (forall k, s' k = s (Z.to_nat (threshold - 1) + k)%nat).
Proof.
  intros Hs Hd.
  pose proof (generate_polynomial_length self secret threshold s) as L.
  pose proof (generate_polynomial_coeffs self secret threshold s) as C.
  assert (T : forall k, snd (generate_polynomial self secret threshold s) k
                        = s (Z.to_nat (threshold - 1) + k)%nat)
    by (intro k; unfold generate_polynomial; apply append_draws_spec).
  destruct (generate_polynomial self secret threshold s) as [coefficients s'].
  cbn [fst snd] in *. split; [exact L|]. split; [rewrite C; reflexivity|].
  split; [|exact T].
  intros c Hc. rewrite C in Hc. destruct Hc as [<-|Hc]; [exact Hs|].
  apply in_map_iff in Hc. destruct Hc as (k & <- & _). apply Hd.
Qed.

Lemma generate_polynomial_field_witness :
  let (coefficients, s') := generate_polynomial (init 7) 3 3 sample_tape in
  length coefficients = Z.to_nat (Z.max 1 3) /\
  nth_error coefficients 0 = Some 3 /\
  (forall c, In c coefficients -> 0 <= c < p (init 7)) /\
  (forall k, s' k = sample_tape (Z.to_nat (3 - 1) + k)%nat).
Proof.
  apply (generate_polynomial_field (init 7) 3 3 sample_tape).
  - cbn. lia.
  - exact sample_tape_below.
Defined.

(** X7.  With a threshold of 1 or less the polynomials are constant: the
    method draws nothing and every share it returns is [(secret mod p, 0)]. *)
Theorem generate_constant_shares
  (self : PedersenVSS.t) (secret t n : Z) (s : rng) :
  0 < p self -> t <= 1 ->
  exists commitments,
    generate_shares_and_commitments self secret t n s
    = inr (repeat (secret mod p self, 0) (Z.to_nat n), commitments, [secret]).
Proof.
  intros Hp Ht.
  pose proof (generate_returns self secret t n s) as R. cbv zeta in R.
  pose proof (generate_polynomial_coeffs self secret t s) as Cf.
  pose proof (generate_polynomial_coeffs self 0 t
                (snd (generate_polynomial self secret t s))) as Cg.
  replace (Z.to_nat (t - 1)) with 0%nat in Cf, Cg by lia.
  cbn [seq map] in Cf, Cg. rewrite Cf, Cg in R. rewrite R.
  eexists. do 2 f_equal. f_equal.
  unfold range. rewrite map_map.
  replace (Z.to_nat (n + 1 - 1)) with (Z.to_nat n) by lia.
  rewrite (map_ext _ (fun _ => (secret mod p self, 0))).
  - rewrite map_const, length_seq. reflexivity.
  - intro k. unfold evaluate_polynomial. cbn [rev app fold_left].
    rewrite !Z.mul_0_l, !Z.add_0_l, Z.mod_0_l by lia. reflexivity.
Qed.

Lemma generate_constant_shares_witness :
  exists commitments,
    generate_shares_and_commitments (init 7) 3 1 4 sample_tape
    = inr (repeat (3 mod p (init 7), 0) (Z.to_nat 4), commitments, [3]).
Proof. apply (generate_constant_shares (init 7) 3 1 4 sample_tape); [reflexivity|lia]. Defined.

(** ** Share verification *)


Lemma getitem_out_of_range {A : Type} (l : list A) (j : Z) :
  Z.of_nat (length l) <= j -> getitem l j = inl IndexError.
Proof.
  intro H. unfold getitem. destruct (Z.ltb_spec j 0); [lia|].
  destruct (Z.ltb_spec j 0); [lia|].
  destruct (Z.leb_spec (Z.of_nat (length l)) j); [reflexivity|lia].
Qed.

Lemma getitem_in_range {A : Type} (l : list A) (j : Z) (d : A) :
  0 <= j < Z.of_nat (length l) -> getitem l j = inr (nth (Z.to_nat j) l d).
Proof.
  intro H. apply getitem_nth_error; [lia|]. apply nth_error_nth'. lia.
Qed.

Section VerifyLoop.

Variable self : PedersenVSS.t.
Variable share_index : Z.
Variable commitments : list Z.


Lemma verify_loop_returns (js : list Z) :
  (forall j, In j js -> 0 <= j < Z.of_nat (length commitments)) ->
  forall right,
    verify_loop self share_index commitments js right
    = inr (fold_left
             (fun right j =>
                (right * pow_mod (nth (Z.to_nat j) commitments 0)
                           (pow_mod share_index j (p self - 1)) (p self))
                mod p self)
             js right).
Proof.
  induction js as [|j0 js IH]; intros H right; [reflexivity|].
  cbn [verify_loop fold_left]. unfold verify_step.
  rewrite (getitem_in_range commitments j0 0) by (apply H; now left).
  cbn [bind ret]. apply IH. intros; apply H; now right.
Qed.

End VerifyLoop.


Lemma pow_mod_nonneg (base exp m : Z) : 0 < m -> 0 <= pow_mod base exp m.
Proof.
  intro Hm. destruct (Z.lt_ge_cases 0 exp) as [H|H].
  - rewrite pow_mod_pos by assumption. apply Z.mod_pos_bound, Hm.
  - destruct exp; try lia; cbn; lia.
Qed.

Lemma eqm_pow (m a b e : Z) : eqm m a b -> eqm m (a ^ e) (b ^ e).
Proof.
  unfold eqm. intro H. rewrite <- (Z.mod_pow_l a), H, Z.mod_pow_l. reflexivity.
Qed.

Lemma zprod_eqm (m : Z) {A : Type} (F G : A -> Z) (l : list A) :
  (forall e, In e l -> eqm m (F e) (G e)) ->
  eqm m (zprod (map F l)) (zprod (map G l)).
Proof.
  induction l as [|e l IH]; intro H; [reflexivity|].
  cbn [map]. rewrite !zprod_cons.
  rewrite (H e (or_introl eq_refl)), IH by (intros; apply H; now right).
  reflexivity.
Qed.

Lemma zsum_nonneg {A : Type} (F : A -> Z) (l : list A) :
  (forall e, In e l -> 0 <= F e) -> 0 <= zsum (map F l).
Proof.
  induction l as [|e l IH]; intro H; [cbn; lia|].
  cbn [map]. rewrite zsum_cons.
  specialize (IH (fun e' H' => H e' (or_intror H'))).
  specialize (H e (or_introl eq_refl)). lia.
Qed.

Lemma zprod_pow_sum {A : Type} (a b : Z) (U V : A -> Z) (l : list A) :
  (forall e, In e l -> 0 <= U e) -> (forall e, In e l -> 0 <= V e) ->
  zprod (map (fun e => a ^ U e * b ^ V e) l)
  = a ^ zsum (map U l) * b ^ zsum (map V l).
Proof.
  induction l as [|e l IH]; intros HU HV; [reflexivity|].
  cbn [map]. rewrite zprod_cons, !zsum_cons.
  pose proof (zsum_nonneg U l (fun e' H' => HU e' (or_intror H'))).
  pose proof (zsum_nonneg V l (fun e' H' => HV e' (or_intror H'))).
  pose proof (HU e (or_introl eq_refl)). pose proof (HV e (or_introl eq_refl)).
  rewrite IH by (intros; first [apply HU|apply HV]; now right).
  rewrite !Z.pow_add_r by assumption. ring.
Qed.

Lemma zsum_seq_peval (x : Z) (coeffs : list Z) :
  forall k,
    zsum (map (fun j => nth (j - k) coeffs 0 * x ^ Z.of_nat j)
              (seq k (length coeffs)))
    = x ^ Z.of_nat k * peval coeffs x.
Proof.
  induction coeffs as [|c cs IH]; intro k; cbn [length seq map peval].
  - cbn. ring.
  - rewrite zsum_cons, Nat.sub_diag. cbn [nth].
    rewrite (map_ext_in _ (fun j => nth (j - S k) cs 0 * x ^ Z.of_nat j)).
    + rewrite IH, Nat2Z.inj_succ, Z.pow_succ_r by lia. ring.
    + intros j Hj. apply in_seq in Hj.
      replace (j - k)%nat with (S (j - S k)) by lia. reflexivity.
Qed.

Lemma zsum_range_peval (x : Z) (coeffs : list Z) :
  zsum (map (fun j => nth (Z.to_nat j) coeffs 0 * x ^ j)
            (range 0 (Z.of_nat (length coeffs))))
  = peval coeffs x.
Proof.
  unfold range. rewrite map_map, Z.sub_0_r, Nat2Z.id.
  rewrite (map_ext _ (fun j => nth (j - 0) coeffs 0 * x ^ Z.of_nat j)).
  - rewrite zsum_seq_peval. change (Z.of_nat 0) with 0. rewrite Z.pow_0_r. ring.
  - intro j. rewrite Z.add_0_l, Nat2Z.id, Nat.sub_0_r. reflexivity.
Qed.

Lemma peval_nonneg (coeffs : list Z) (x : Z) :
  0 <= x -> (forall c, In c coeffs -> 0 <= c) -> 0 <= peval coeffs x.
Proof.
  intro Hx. induction coeffs as [|c cs IH]; intro H; cbn [peval]; [lia|].
  specialize (IH (fun c' H' => H c' (or_intror H'))).
  specialize (H c (or_introl eq_refl)). nia.
Qed.

Section VerifyProduct.

Variable self : PedersenVSS.t.
Hypothesis p_gt_1 : 1 < p self.
Variable share_index : Z.
Variable commitments : list Z.

Lemma verify_fold_product (js : list Z) :
  forall right,
    let result :=
      fold_left
        (fun right j =>
           (right * pow_mod (nth (Z.to_nat j) commitments 0)
                      (pow_mod share_index j (p self - 1)) (p self))
           mod p self)
        js right in
    eqm (p self) result
        (right * zprod (map (fun j => nth (Z.to_nat j) commitments 0
                                      ^ pow_mod share_index j (p self - 1)) js))
    /\ (0 <= right < p self -> 0 <= result < p self).
Proof.
  induction js as [|j js IH]; intro right; cbn [fold_left map].
  - cbn zeta. rewrite Z.mul_1_r. split; [reflexivity|auto].
  - destruct (IH ((right * pow_mod (nth (Z.to_nat j) commitments 0)
                             (pow_mod share_index j (p self - 1)) (p self))
                  mod p self)) as [E B].
    cbv zeta in *. split.
    + rewrite E, Zmod_eqm, zprod_cons.
      assert (C : eqm (p self)
                    (pow_mod (nth (Z.to_nat j) commitments 0)
                       (pow_mod share_index j (p self - 1)) (p self))
                    (nth (Z.to_nat j) commitments 0
                     ^ pow_mod share_index j (p self - 1))).
      { apply pow_mod_congr; [lia|]. apply pow_mod_nonneg. lia. }
      rewrite C. eqm_ring.
    + intros _. apply B, Z.mod_pos_bound. lia.
Qed.

End VerifyProduct.

Lemma verify_generated_share
  (self : PedersenVSS.t) (secret t n : Z) (s s1 s2 : rng)
  (f_coeffs g_coeffs : list Z) (shares : list (Z * Z)) (commitments : list Z)
  (index : Z) (share : Z * Z) :
  2 < p self -> 0 <= secret -> draws_below (p self) s ->
  1 <= t -> 1 <= index <= n ->
  generate_polynomial self secret t s = (f_coeffs, s1) ->
  generate_polynomial self 0 t s1 = (g_coeffs, s2) ->
  generate_shares_and_commitments self secret t n s
  = inr (shares, commitments, f_coeffs) ->
  nth_error shares (Z.to_nat (index - 1)) = Some share ->
  index ^ (t - 1) < p self - 1 ->
  peval f_coeffs index < p self -> peval g_coeffs index < p self ->
  verify_share self index share commitments t = inr true.
Proof.
  intros Hp Hs Hd Ht Hi Ef Eg Hgen Hsh Hpow Hf Hg.
  pose proof (generate_returns self secret t n s) as R. cbv zeta in R.
  pose proof (generate_polynomial_length self secret t s) as Lf.
  pose proof (generate_polynomial_range self secret t s (p self)) as Rf.
  pose proof (generate_polynomial_draws self secret t s (p self) Hd) as Hd1.
  rewrite Ef in R, Lf, Rf, Hd1. cbn [fst snd] in R, Lf, Rf, Hd1.
  pose proof (generate_polynomial_length self 0 t s1) as Lg.
  pose proof (generate_polynomial_range self 0 t s1 (p self)) as Rg.
  rewrite Eg in R, Lg, Rg. cbn [fst snd] in R, Lg, Rg.
  rewrite Z.max_r in Lf, Lg by lia.
  rewrite R in Hgen. injection Hgen as Hshares Hcomm.
  rewrite <- Hshares in Hsh.
  rewrite nth_error_map, range_nth_error in Hsh by lia.
  replace (1 + Z.of_nat (Z.to_nat (index - 1))) with index in Hsh by lia.
  unfold option_map in Hsh. injection Hsh as Hshare. subst share.
  assert (Nf : forall c, In c f_coeffs -> 0 <= c) by (intros; apply Rf; auto).
  assert (Ng : forall c, In c g_coeffs -> 0 <= c) by (intros; apply Rg; auto; lia).
  assert (Pf : 0 <= peval f_coeffs index) by (apply peval_nonneg; [lia|exact Nf]).
  assert (Pg : 0 <= peval g_coeffs index) by (apply peval_nonneg; [lia|exact Ng]).
  unfold verify_share.
  rewrite verify_loop_returns
    by (intros j Hj; apply range_In in Hj; rewrite <- Hcomm, length_map, range_length; lia).
  cbn [bind]. unfold ret.
  match goal with
  | |- inr (?a =? ?b) = _ => replace b with a; [rewrite Z.eqb_refl; reflexivity|]
  end.
  destruct (verify_fold_product self ltac:(lia) index commitments (range 0 t) 1)
    as [E B].
  cbv zeta in E, B. specialize (B ltac:(lia)).
  set (right := fold_left _ (range 0 t) 1) in *.
  change ((pow_mod (g self) (evaluate_polynomial self f_coeffs index) (p self)
           * pow_mod (h self) (evaluate_polynomial self g_coeffs index) (p self))
          mod p self)
    with (commitment self (evaluate_polynomial self f_coeffs index)
            (evaluate_polynomial self g_coeffs index)).
  rewrite !evaluate_polynomial_peval by lia.
  rewrite !Z.mod_small by lia.
  rewrite commitment_spec by lia.
  rewrite <- (Z.mod_small right (p self)) by exact B.
  symmetry. unfold eqm in E. rewrite E, Z.mul_1_l.
  match goal with |- ?a mod ?m = ?b mod ?m => change (eqm m a b) end.
  assert (Hexp : forall j, 0 <= j < t ->
                           pow_mod index j (p self - 1) = index ^ j).
  { intros j Hj. rewrite pow_mod_spec by lia. apply Z.mod_small.
    split; [apply Z.pow_nonneg; lia|].
    apply Z.le_lt_trans with (index ^ (t - 1)); [|exact Hpow].
    apply Z.pow_le_mono_r; lia. }
  rewrite (map_ext_in _
             (fun j => commitment self (nth (Z.to_nat j) f_coeffs 0)
                         (nth (Z.to_nat j) g_coeffs 0) ^ (index ^ j))).
  2:{ intros j Hj. apply range_In in Hj. rewrite Hexp by lia. f_equal.
      rewrite <- Hcomm.
      rewrite (nth_error_nth _ _ 0
                 (x := commitment self (nth (Z.to_nat j) f_coeffs 0)
                         (nth (Z.to_nat j) g_coeffs 0))); [reflexivity|].
      rewrite nth_error_map, range_nth_error by lia.
      unfold option_map. rewrite Z.add_0_l, Z2Nat.id by lia. reflexivity. }
  rewrite (zprod_eqm (p self) _
             (fun j => g self ^ (nth (Z.to_nat j) f_coeffs 0 * index ^ j)
                       * h self ^ (nth (Z.to_nat j) g_coeffs 0 * index ^ j))).
  2:{ intros j Hj. apply range_In in Hj.
      assert (0 <= index ^ j) by (apply Z.pow_nonneg; lia).
      assert (0 <= nth (Z.to_nat j) f_coeffs 0) by (apply Nf, nth_In; lia).
      assert (0 <= nth (Z.to_nat j) g_coeffs 0) by (apply Ng, nth_In; lia).
      rewrite (eqm_pow (p self) _ (g self ^ nth (Z.to_nat j) f_coeffs 0
                                   * h self ^ nth (Z.to_nat j) g_coeffs 0)).
      - rewrite Z.pow_mul_l, <- !Z.pow_mul_r by lia. reflexivity.
      - rewrite commitment_spec by lia. apply Zmod_eqm. }
  rewrite (zprod_pow_sum (g self) (h self)
             (fun j => nth (Z.to_nat j) f_coeffs 0 * index ^ j)
             (fun j => nth (Z.to_nat j) g_coeffs 0 * index ^ j)).
  2:{ intros j Hj. apply range_In in Hj. apply Z.mul_nonneg_nonneg;
        [apply Nf, nth_In; lia|apply Z.pow_nonneg; lia]. }
  2:{ intros j Hj. apply range_In in Hj. apply Z.mul_nonneg_nonneg;
        [apply Ng, nth_In; lia|apply Z.pow_nonneg; lia]. }
  replace t with (Z.of_nat (length f_coeffs)) at 1 by lia.
  replace t with (Z.of_nat (length g_coeffs)) at 1 by lia.
  rewrite !zsum_range_peval. reflexivity.
Qed.

(** X9.  An honestly generated share is accepted by [verify_share] whenever
    nothing wraps around: the values of both polynomials at the index, taken
    over the integers, stay below [p], and [index^(t-1)] stays below [p - 1]. *)
Theorem verify_share_sound_without_wrap
  (self : PedersenVSS.t) (secret t n : Z) (s s1 s2 : rng)
  (f_coeffs g_coeffs : list Z) (shares : list (Z * Z)) (commitments : list Z)
  (index : Z) (share : Z * Z) :
  2 < p self -> 0 <= secret -> draws_below (p self) s ->
  1 <= t -> 1 <= index <= n ->
  generate_polynomial self secret t s = (f_coeffs, s1) ->
  generate_polynomial self 0 t s1 = (g_coeffs, s2) ->
  generate_shares_and_commitments self secret t n s
  = inr (shares, commitments, f_coeffs) ->
  nth_error shares (Z.to_nat (index - 1)) = Some share ->
  index ^ (t - 1) < p self - 1 ->
  peval f_coeffs index < p self -> peval g_coeffs index < p self ->
  verify_share self index share commitments t = inr true.
Proof. apply verify_generated_share. Qed.

Lemma verify_share_sound_without_wrap_witness :
  exists shares commitments f_coeffs share_1,
    generate_shares_and_commitments (init default_prime) 42 3 5 run_tape
    = inr (shares, commitments, f_coeffs) /\
    nth_error shares 0 = Some share_1 /\
    verify_share (init default_prime) 1 share_1 commitments 3 = inr true.
Proof.
  eexists _, _, _, _. split; [vm_compute; reflexivity|].
  split; [reflexivity|].
  eapply (verify_share_sound_without_wrap (init default_prime) 42 3 5 run_tape
           _ _ _ _ _ _ 1).
  - reflexivity.
  - lia.
  - exact run_tape_below.
  - lia.
  - lia.
  - reflexivity.
  - reflexivity.
  - vm_compute. reflexivity.
  - reflexivity.
  - reflexivity.
  - reflexivity.
  - reflexivity.
Defined.

(** ** Reconstruction *)

(** X10.  Only the first [threshold] shares are read: with at least
    [threshold >= 0] shares the result is that of the list cut after
    [threshold] entries, whatever follows. *)
Theorem lagrange_interpolation_first_shares
  (self : PedersenVSS.t) (shares : list revealed) (threshold : Z) :
  0 <= threshold <= Z.of_nat (length shares) ->
  lagrange_interpolation self shares threshold
  = lagrange_interpolation self (firstn (Z.to_nat threshold) shares) threshold.
Proof.
  intro H. unfold lagrange_interpolation.
  assert (L : length (firstn (Z.to_nat threshold) shares) = Z.to_nat threshold)
    by (apply firstn_length_le; lia).
  rewrite L.
  destruct (Z.ltb_spec (Z.of_nat (length shares)) threshold); [lia|].
  destruct (Z.ltb_spec (Z.of_nat (Z.to_nat threshold)) threshold); [lia|].
  rewrite slice_to_firstn by lia.
  rewrite (slice_to_all (firstn (Z.to_nat threshold) shares)) by lia.
  reflexivity.
Qed.

Lemma lagrange_interpolation_first_shares_witness :
  lagrange_interpolation (init 7) [(1, (1, 5)); (3, (4, 1)); (9, (9, 9))] 2
  = lagrange_interpolation (init 7)
      (firstn (Z.to_nat 2) [(1, (1, 5)); (3, (4, 1)); (9, (9, 9))]) 2.
Proof.
  apply (lagrange_interpolation_first_shares (init 7)
           [(1, (1, 5)); (3, (4, 1)); (9, (9, 9))] 2).
  cbn. lia.
Defined.

(** X11.  A negative threshold is not rejected: the slice [shares[:threshold]]
    drops the last [-threshold] shares and all the others are interpolated. *)
Theorem lagrange_interpolation_negative_threshold
  (self : PedersenVSS.t) (shares : list revealed) (threshold : Z) :
  threshold < 0 ->
  let kept := firstn (Z.to_nat (Z.of_nat (length shares) + threshold)) shares in
  lagrange_interpolation self shares threshold
  = lagrange_interpolation self kept (Z.of_nat (length kept)).
Proof.
  intros H kept. unfold lagrange_interpolation.
  destruct (Z.ltb_spec (Z.of_nat (length shares)) threshold); [lia|].
  rewrite Z.ltb_irrefl, (slice_to_all kept) by reflexivity.
  unfold slice_to. destruct (Z.ltb_spec threshold 0); [|lia].
  rewrite Z.add_comm. reflexivity.
Qed.

Lemma lagrange_interpolation_negative_threshold_witness :
  let kept :=
    firstn (Z.to_nat (Z.of_nat (length [(1, (1, 5)); (3, (4, 1)); (9, (9, 9))])
                      + -1))
           [(1, (1, 5)); (3, (4, 1)); (9, (9, 9))] in
  lagrange_interpolation (init 7) [(1, (1, 5)); (3, (4, 1)); (9, (9, 9))] (-1)
  = lagrange_interpolation (init 7) kept (Z.of_nat (length kept)).
Proof.
  apply (lagrange_interpolation_negative_threshold (init 7)
           [(1, (1, 5)); (3, (4, 1)); (9, (9, 9))] (-1)).
  lia.
Defined.

Lemma mod_inverse_outcome (a m : Z) :
  mod_inverse a m = inl DomainError \/ exists x, mod_inverse a m = inr x.
Proof.
  unfold mod_inverse. destruct (extended_gcd (a mod m) m) as [[g0 x] y].
  destruct (negb (g0 =? 1)); [left; reflexivity|right; eexists; reflexivity].
Qed.

Lemma lagrange_loop_outcome (self : PedersenVSS.t) (shares : list revealed) :
  0 < p self ->
  forall todo secret,
    lagrange_loop self shares todo secret = inl DomainError \/
    exists r, lagrange_loop self shares todo secret = inr r /\
              (0 <= secret < p self -> 0 <= r < p self).
Proof.
  intros Hp todo. induction todo as [|[i [x_i [f_i g_i]]] todo IH]; intro secret.
  - right. exists secret. split; [reflexivity|auto].
  - cbn [lagrange_loop].
    destruct (lagrange_terms self shares i x_i) as [numerator denominator].
    destruct (mod_inverse_outcome denominator (p self)) as [E|[inv E]];
      rewrite E; cbn [bind]; [left; reflexivity|].
    destruct (IH ((secret + f_i * (numerator * inv mod p self)) mod p self))
      as [F|(r & F & B)]; [left; exact F|].
    right. exists r. split; [exact F|]. intros _. apply B, Z.mod_pos_bound, Hp.
Qed.

(** X12.  On a positive modulus [lagrange_interpolation] has three outcomes
    only: the insufficient-shares error, the missing-inverse error, or a
    value of [[0, p)]. *)
Theorem lagrange_interpolation_outcomes
  (self : PedersenVSS.t) (shares : list revealed) (threshold : Z) :
  0 < p self ->
  lagrange_interpolation self shares threshold = inl InsufficientSharesError \/
  lagrange_interpolation self shares threshold = inl DomainError \/
  exists r, lagrange_interpolation self shares threshold = inr r /\
            0 <= r < p self.
Proof.
  intro Hp. unfold lagrange_interpolation.
  destruct (Z.of_nat (length shares) <? threshold); [left; reflexivity|].
  right.
  destruct (lagrange_loop_outcome self (slice_to shares threshold) Hp
              (enumerate (slice_to shares threshold)) 0) as [E|(r & E & B)].
  - left. exact E.
  - right. exists r. split; [exact E|]. apply B. lia.
Qed.

Lemma lagrange_interpolation_outcomes_witness :
  lagrange_interpolation (init 7) [(1, (1, 5)); (3, (4, 1))] 2
  = inl InsufficientSharesError \/
  lagrange_interpolation (init 7) [(1, (1, 5)); (3, (4, 1))] 2
  = inl DomainError \/
  exists r, lagrange_interpolation (init 7) [(1, (1, 5)); (3, (4, 1))] 2 = inr r /\
            0 <= r < p (init 7).
Proof.
  apply (lagrange_interpolation_outcomes (init 7) [(1, (1, 5)); (3, (4, 1))] 2).
  reflexivity.
Defined.

Lemma denominator_congruent_factor
  (self : PedersenVSS.t) (i : nat) (x_i : Z)
  (l : list (nat * revealed)) (j : nat) (x_j : Z) (s_j : Z * Z) :
  1 < p self ->
  In (j, (x_j, s_j)) l -> j <> i -> (p self | x_i - x_j) ->
  forall acc, snd (fold_left (lagrange_terms_step self i x_i) l acc) = 0.
Proof.
  intros Hp H N D. induction l as [|e l IH]; [contradiction|].
  intros [numerator denominator]. destruct H as [->|H].
  - cbn [fold_left lagrange_terms_step].
    destruct (Nat.eqb_spec i j); [congruence|]. cbn [negb].
    rewrite (Z.mod0_divide (denominator * (x_i - x_j)))
      by (apply Z.divide_mul_r, D).
    apply denominator_stays_zero, Hp.
  - cbn [fold_left]. apply IH, H.
Qed.

Lemma lagrange_congruent_error
  (self : PedersenVSS.t) (shares : list revealed) (threshold : Z)
  (a b : nat) (x_a x_b : Z) (s_a s_b : Z * Z) :
  1 < p self ->
  threshold <= Z.of_nat (length shares) ->
  a <> b -> Z.of_nat a < threshold -> Z.of_nat b < threshold ->
  nth_error shares a = Some (x_a, s_a) ->
  nth_error shares b = Some (x_b, s_b) ->
  (p self | x_a - x_b) ->
  lagrange_interpolation self shares threshold = inl DomainError.
Proof.
  intros Hp Hlen Hab Ha Hb Ea Eb D. unfold lagrange_interpolation.
  destruct (Z.ltb_spec (Z.of_nat (length shares)) threshold); [lia|].
  rewrite slice_to_firstn by lia.
  set (sel := firstn (Z.to_nat threshold) shares).
  assert (Sa : nth_error sel a = Some (x_a, s_a)).
  { unfold sel. rewrite nth_error_firstn.
    destruct (Nat.ltb_spec a (Z.to_nat threshold)); [exact Ea|lia]. }
  assert (Sb : nth_error sel b = Some (x_b, s_b)).
  { unfold sel. rewrite nth_error_firstn.
    destruct (Nat.ltb_spec b (Z.to_nat threshold)); [exact Eb|lia]. }
  apply lagrange_loop_fails; [lia|].
  exists a, x_a, s_a. split; [apply enumerate_In, Sa|].
  unfold lagrange_terms.
  rewrite (denominator_congruent_factor self a x_a (enumerate sel) b x_b s_b);
    [|exact Hp|apply enumerate_In, Sb|congruence|exact D].
  rewrite Z.gcd_0_l. lia.
Qed.

(** X13.  When two of the first [threshold] shares have indices congruent
    modulo [p], equal or not, the reconstruction raises the missing-inverse
    error. *)
Theorem lagrange_interpolation_congruent_indices
  (self : PedersenVSS.t) (shares : list revealed) (threshold : Z)
  (a b : nat) (x_a x_b : Z) (s_a s_b : Z * Z) :
  1 < p self ->
  threshold <= Z.of_nat (length shares) ->
  a <> b -> Z.of_nat a < threshold -> Z.of_nat b < threshold ->
  nth_error shares a = Some (x_a, s_a) ->
  nth_error shares b = Some (x_b, s_b) ->
  (p self | x_a - x_b) ->
  lagrange_interpolation self shares threshold = inl DomainError.
Proof. apply lagrange_congruent_error. Qed.

Lemma lagrange_interpolation_congruent_indices_witness :
  lagrange_interpolation (init 7) [(1, (1, 5)); (8, (1, 5))] 2 = inl DomainError.
Proof.
  apply (lagrange_interpolation_congruent_indices (init 7)
           [(1, (1, 5)); (8, (1, 5))] 2 0%nat 1%nat 1 8 (1, 5) (1, 5)).
  - reflexivity.
  - cbn. lia.
  - discriminate.
  - reflexivity.
  - reflexivity.
  - reflexivity.
  - reflexivity.
  - exists (-1). reflexivity.
Defined.

(** X14.  Over a prime [p], when the indices of the first [threshold] shares
    are pairwise incongruent modulo [p], the reconstruction raises nothing and
    returns a value of [[0, p)], whatever the share values are. *)
Theorem lagrange_interpolation_returns
  (self : PedersenVSS.t) (shares : list revealed) (threshold : Z) :
  Z.prime (p self) ->
  0 <= threshold <= Z.of_nat (length shares) ->
  distinct_mod (p self) (map fst (firstn (Z.to_nat threshold) shares)) ->
  exists r, lagrange_interpolation self shares threshold = inr r /\
            0 <= r < p self.
Proof.
  intros Hp Ht Hd. unfold lagrange_interpolation.
  destruct (Z.ltb_spec (Z.of_nat (length shares)) threshold); [lia|].
  rewrite slice_to_firstn by lia.
  destruct (lagrange_loop_sum self Hp _ Hd
              (enumerate (firstn (Z.to_nat threshold) shares)) (fun e H => H) 0)
    as (r & E & _ & B).
  exists r. split; [exact E|]. apply B. pose proof (p_prime_pos self Hp). lia.
Qed.

Lemma lagrange_interpolation_returns_witness :
  exists r, lagrange_interpolation (init 7) [(2, (6, 0)); (5, (1, 1)); (9, (9, 9))] 2
            = inr r /\ 0 <= r < p (init 7).
Proof.
  apply (lagrange_interpolation_returns (init 7)
           [(2, (6, 0)); (5, (1, 1)); (9, (9, 9))] 2).
  - exact prime_7.
  - cbn. lia.
  - change (distinct_mod 7 [2; 5]). apply NoDup_distinct_mod.
    + repeat constructor; cbn; intuition discriminate.
    + intros x [<-|[<-|[]]]; lia.
Defined.

(** X15.  Over a prime [p], from [t] shares whose indices are pairwise
    incongruent modulo [p] and whose first components are the values, modulo
    [p], of one polynomial with at most [t] coefficients, the reconstruction
    returns the constant coefficient of that polynomial, reduced. *)
Theorem lagrange_interpolation_polynomial
  (self : PedersenVSS.t) (sel : list revealed) (coeffs : list Z) :
  Z.prime (p self) ->
  distinct_mod (p self) (map fst sel) ->
  (length coeffs <= length sel)%nat ->
  (forall x f g, In (x, (f, g)) sel -> f mod p self = peval coeffs x mod p self) ->
  lagrange_interpolation self sel (Z.of_nat (length sel))
  = inr (nth 0 coeffs 0 mod p self).
Proof.
  intros Hp Hd Hl Hv. unfold lagrange_interpolation.
  rewrite Z.ltb_irrefl, slice_to_all by reflexivity.
  rewrite (lagrange_loop_constant self Hp sel Hd coeffs Hl).
  - do 2 f_equal. destruct coeffs as [|c cs]; cbn [peval nth]; [reflexivity|ring].
  - intros i x f g H. apply (Hv x f g). apply nth_error_In in H. exact H.
Qed.

Lemma lagrange_interpolation_polynomial_witness :
  lagrange_interpolation (init 7) [(2, (6, 0)); (5, (0, 1))]
    (Z.of_nat (length [(2, (6, 0)); (5, (0, 1))]))
  = inr (nth 0 [3; 5] 0 mod p (init 7)).
Proof.
  apply (lagrange_interpolation_polynomial (init 7)
           [(2, (6, 0)); (5, (0, 1))] [3; 5]).
  - exact prime_7.
  - change (distinct_mod 7 [2; 5]). apply NoDup_distinct_mod.
    + repeat constructor; cbn; intuition discriminate.
    + intros x [<-|[<-|[]]]; lia.
  - cbn. lia.
  - intros x f g [E|[E|[]]]; inversion E; subst; reflexivity.
Defined.

(** ** The will: creation *)

Lemma hash_secret_in_range (sha256_hexdigest : list Z -> string) (secret : Z) :
  0 <= secret < 2 ^ 256 ->
  exists digest, hash_secret sha256_hexdigest secret = inr digest.
Proof.
  intro H. unfold hash_secret, to_bytes32.
  destruct (Z.ltb_spec secret 0); [lia|].
  destruct (Z.leb_spec (2 ^ 256) secret); [lia|].
  cbn [orb bind ret]. eexists. reflexivity.
Qed.

Lemma nth_error_enumerate {A : Type} (l : list A) (k : nat) :
  nth_error (enumerate l) k = option_map (fun a => (k, a)) (nth_error l k).
Proof.
  unfold enumerate.
  assert (G : forall a k,
             nth_error (combine (seq a (length l)) l) k
             = option_map (fun x => ((a + k)%nat, x)) (nth_error l k)).
  { induction l as [|b l IH]; intros a j; cbn [length seq combine].
    - destruct j; reflexivity.
    - destruct j as [|j]; cbn [nth_error option_map].
      + rewrite Nat.add_0_r. reflexivity.
      + rewrite IH. replace (S a + j)%nat with (a + S j)%nat by lia.
        reflexivity. }
  apply G.
Qed.

Lemma nth_error_make_trustees (shares : list (Z * Z)) (k : nat) :
  nth_error (CryptoWill.make_trustees shares) k
  = option_map (fun sh => CryptoWill.Trustee (Z.of_nat k + 1) sh false false)
               (nth_error shares k).
Proof.
  unfold CryptoWill.make_trustees.
  rewrite nth_error_map, nth_error_enumerate.
  destruct (nth_error shares k); reflexivity.
Qed.

Lemma length_make_trustees (shares : list (Z * Z)) :
  length (CryptoWill.make_trustees shares) = length shares.
Proof.
  unfold CryptoWill.make_trustees. rewrite length_map. apply enumerate_length.
Qed.

Section CreateWill.

Variable sha256_hexdigest : list Z -> string.
Variable self : CryptoWill.t.
Variables (heirs : list string) (heir_percentages : list Z).
Variables (num_trustees threshold : Z) (s : rng).

(** What a successful [create_will] went through. *)
Lemma create_will_inv (w : CryptoWill.will_data) :
  CryptoWill.create_will sha256_hexdigest self heirs heir_percentages
    num_trustees threshold s = inr w ->
  length heirs = length heir_percentages /\
  fold_left Z.add heir_percentages 0 = 100 /\
  threshold <= num_trustees /\
  exists digest shares commitments f_coeffs,
    hash_secret sha256_hexdigest (s O) = inr digest /\
    generate_shares_and_commitments (CryptoWill.vss self) (s O) threshold
      num_trustees (fun k => s (S k)) = inr (shares, commitments, f_coeffs) /\
    w = CryptoWill.WillData (s O) digest heirs heir_percentages num_trustees
          threshold commitments (CryptoWill.make_trustees shares) f_coeffs
          (p (CryptoWill.vss self)) (g (CryptoWill.vss self))
          (h (CryptoWill.vss self)).
Proof.
  unfold CryptoWill.create_will.
  destruct (Nat.eqb_spec (length heirs) (length heir_percentages));
    cbn [negb]; [|discriminate].
  destruct (Z.eqb_spec (fold_left Z.add heir_percentages 0) 100);
    cbn [negb]; [|discriminate].
  destruct (Z.gtb_spec threshold num_trustees); [discriminate|].
  unfold randbelow.
  destruct (hash_secret sha256_hexdigest (s O)) as [e1|digest]; [discriminate|].
  cbn [bind].
  destruct (generate_shares_and_commitments (CryptoWill.vss self) (s O)
              threshold num_trustees
              (fun k => s (S k))) as [e2|[[shares commitments] f_coeffs]];
    [discriminate|].
  cbn [bind]. unfold ret. intro Hw. injection Hw as <-.
  repeat split; try assumption; try lia. eauto 10.
Qed.

End CreateWill.

(** X16.  [create_will] checks, in this order, that heirs and percentages
    have the same length, that the percentages sum to 100 and that the
    threshold does not exceed the number of trustees, each failure raising
    its own ValueError; on a modulus of [(0, 2^256]] it succeeds whenever the
    three checks pass, also for a threshold below 1. *)
Theorem create_will_validation
  (sha256_hexdigest : list Z -> string) (self : CryptoWill.t)
  (heirs : list string) (heir_percentages : list Z)
  (num_trustees threshold : Z) (s : rng) :
  0 < p (CryptoWill.vss self) <= 2 ^ 256 ->
  draws_below (p (CryptoWill.vss self)) s ->
  let outcome :=
    CryptoWill.create_will sha256_hexdigest self heirs heir_percentages
      num_trustees threshold s in
  (length heirs <> length heir_percentages ->
   outcome = inl (ValueError "Number of heirs must match number of percentages"))
  /\
  (length heirs = length heir_percentages ->
   fold_left Z.add heir_percentages 0 <> 100 ->
   outcome = inl (ValueError "Percentages must sum to 100")) /\
  (length heirs = length heir_percentages ->
   fold_left Z.add heir_percentages 0 = 100 ->
   num_trustees < threshold ->
   outcome = inl (ValueError "Threshold cannot exceed number of trustees")) /\
  (length heirs = length heir_percentages ->
   fold_left Z.add heir_percentages 0 = 100 ->
   threshold <= num_trustees ->
   exists w, outcome = inr w).
Proof.
  intros Hp Hd outcome. subst outcome. unfold CryptoWill.create_will.
  destruct (Nat.eqb_spec (length heirs) (length heir_percentages)) as [L|L];
    cbn [negb].
  2:{ repeat split; intros; try contradiction; reflexivity. }
  destruct (Z.eqb_spec (fold_left Z.add heir_percentages 0) 100) as [S|S];
    cbn [negb].
  2:{ repeat split; intros; try contradiction; reflexivity. }
  destruct (Z.gtb_spec threshold num_trustees) as [T|T].
  { repeat split; intros; try contradiction; try lia; reflexivity. }
  repeat split; intros; try contradiction; try lia.
  unfold randbelow.
  destruct (hash_secret_in_range sha256_hexdigest (s O)) as [digest ->].
  { pose proof (Hd O). lia. }
  cbn [bind].
  rewrite generate_returns. cbn [bind]. eexists. reflexivity.
Qed.

Lemma create_will_validation_witness :
  let outcome :=
    CryptoWill.create_will (fun _ => "00"%string) (CryptoWill.init 7)
      ["0x1234"%string; "0x2345"%string] [60; 40] 5 3 sample_tape in
  (length ["0x1234"%string; "0x2345"%string] <> length [60; 40] ->
   outcome = inl (ValueError "Number of heirs must match number of percentages"))
  /\
  (length ["0x1234"%string; "0x2345"%string] = length [60; 40] ->
   fold_left Z.add [60; 40] 0 <> 100 ->
   outcome = inl (ValueError "Percentages must sum to 100")) /\
  (length ["0x1234"%string; "0x2345"%string] = length [60; 40] ->
   fold_left Z.add [60; 40] 0 = 100 ->
   5 < 3 ->
   outcome = inl (ValueError "Threshold cannot exceed number of trustees")) /\
  (length ["0x1234"%string; "0x2345"%string] = length [60; 40] ->
   fold_left Z.add [60; 40] 0 = 100 ->
   3 <= 5 ->
   exists w, outcome = inr w).
Proof.
  apply (create_will_validation (fun _ => "00"%string) (CryptoWill.init 7)
           ["0x1234"%string; "0x2345"%string] [60; 40] 5 3 sample_tape).
  - cbn. split; [lia|]. apply Z.leb_le. reflexivity.
  - exact sample_tape_below.
Defined.

(** X17.  A will returned by [create_will] records its arguments and the
    modulus, holds a secret of [[0, p)] with its hash, the constant
    coefficient of [f_coefficients] being that secret, [threshold]
    commitments and one entry per trustee: trustee [k+1] at position [k],
    neither verified nor revealed, whose share starts with the value of [f]
    at [k+1]. *)
Theorem create_will_structure
  (sha256_hexdigest : list Z -> string) (self : CryptoWill.t)
  (heirs : list string) (heir_percentages : list Z)
  (num_trustees threshold : Z) (s : rng) (w : CryptoWill.will_data) :
  0 < p (CryptoWill.vss self) ->
  draws_below (p (CryptoWill.vss self)) s ->
  CryptoWill.create_will sha256_hexdigest self heirs heir_percentages
    num_trustees threshold s = inr w ->
  CryptoWill.heirs w = heirs /\
  CryptoWill.heir_percentages w = heir_percentages /\
  CryptoWill.num_trustees w = num_trustees /\
  CryptoWill.threshold w = threshold /\
  CryptoWill.prime w = p (CryptoWill.vss self) /\
  0 <= CryptoWill.secret w < p (CryptoWill.vss self) /\
  hash_secret sha256_hexdigest (CryptoWill.secret w)
  = inr (CryptoWill.secret_hash w) /\
  nth_error (CryptoWill.f_coefficients w) 0 = Some (CryptoWill.secret w) /\
  length (CryptoWill.commitments w) = Z.to_nat threshold /\
  length (CryptoWill.trustee_shares w) = Z.to_nat num_trustees /\
  forall k td,
    nth_error (CryptoWill.trustee_shares w) k = Some td ->
    CryptoWill.trustee_index td = Z.of_nat k + 1 /\
    CryptoWill.verified td = false /\
    CryptoWill.revealed td = false /\
    fst (CryptoWill.share td)
    = evaluate_polynomial (CryptoWill.vss self) (CryptoWill.f_coefficients w)
        (Z.of_nat k + 1).
Proof.
  intros Hp Hd Hw. apply create_will_inv in Hw.
  destruct Hw as (_ & _ & _ & digest & shares & commitments & f_coeffs
                  & Hh & Hg & ->).
  cbn [CryptoWill.heirs CryptoWill.heir_percentages CryptoWill.num_trustees
       CryptoWill.threshold CryptoWill.prime CryptoWill.secret
       CryptoWill.secret_hash CryptoWill.f_coefficients CryptoWill.commitments
       CryptoWill.trustee_shares].
  rewrite generate_returns in Hg. cbv zeta in Hg.
  injection Hg as Hshares Hcomm Hf.
  pose proof (generate_polynomial_coeffs (CryptoWill.vss self) (s O) threshold
                (fun k => s (S k))) as C.
  rewrite Hf in C, Hshares.
  repeat match goal with |- _ /\ _ => split end; try reflexivity.
  - apply Hd.
  - apply Hd.
  - exact Hh.
  - rewrite C. reflexivity.
  - rewrite <- Hcomm, length_map, range_length. f_equal. lia.
  - rewrite length_make_trustees, <- Hshares, length_map, range_length.
    f_equal. lia.
  - intros k td Hk. rewrite nth_error_make_trustees in Hk.
    destruct (nth_error shares k) as [sh|] eqn:E; [|discriminate].
    cbn [option_map] in Hk. injection Hk as <-.
    cbn [CryptoWill.trustee_index CryptoWill.verified CryptoWill.revealed
         CryptoWill.share].
    repeat split.
    assert (L : (k < length shares)%nat) by (apply nth_error_Some; congruence).
    rewrite <- Hshares in E, L. rewrite length_map, range_length in L.
    rewrite nth_error_map, range_nth_error in E by exact L.
    unfold option_map in E.
    apply (f_equal (fun o => match o with Some v => v | None => sh end)) in E.
    cbv beta iota in E. rewrite <- E. cbn [fst].
    rewrite (Z.add_comm 1). reflexivity.
Qed.

Lemma create_will_structure_witness :
  exists w,
    CryptoWill.create_will (fun _ => "00"%string) (CryptoWill.init 7)
      ["0x1234"%string; "0x2345"%string] [60; 40] 5 3 sample_tape = inr w /\
    CryptoWill.threshold w = 3 /\
    length (CryptoWill.trustee_shares w) = Z.to_nat 5.
Proof.
  eexists. split; [vm_compute; reflexivity|].
  pose proof (create_will_structure (fun _ => "00"%string) (CryptoWill.init 7)
                ["0x1234"%string; "0x2345"%string] [60; 40] 5 3 sample_tape _
                ltac:(reflexivity) sample_tape_below eq_refl) as H.
  split; [apply H|apply H].
Defined.

(** ** The will: reconstruction *)

Lemma lagrange_of_evaluations
  (self : PedersenVSS.t) (sel : list revealed) (coeffs : list Z) :
  Z.prime (p self) ->
  NoDup (map fst sel) ->
  length coeffs = length sel ->
  (forall x sh, In (x, sh) sel ->
                1 <= x <= p self /\ fst sh = evaluate_polynomial self coeffs x) ->
  lagrange_interpolation self sel (Z.of_nat (length sel))
  = inr (nth 0 coeffs 0 mod p self).
Proof.
  intros Hp Hn Hl Hv. pose proof (p_prime_pos self Hp) as Hpos.
  unfold lagrange_interpolation.
  rewrite Z.ltb_irrefl, slice_to_all by reflexivity.
  rewrite (lagrange_loop_constant self Hp sel) with (cs := coeffs).
  - do 2 f_equal. destruct coeffs as [|c cs]; cbn [peval nth]; [reflexivity|ring].
  - apply NoDup_distinct_mod; [exact Hn|].
    intros x Hx. apply in_map_iff in Hx. destruct Hx as ([x' sh] & <- & Hin).
    apply (Hv x' sh Hin).
  - lia.
  - intros i x f g Hi. apply nth_error_In in Hi.
    destruct (Hv x (f, g) Hi) as [_ E]. cbn [fst] in E. rewrite E.
    rewrite evaluate_polynomial_peval by exact Hpos.
    unfold eqm. apply Z.mod_mod. lia.
Qed.

(** X18.  A will created over a prime [p <= 2^256] with
    [1 <= threshold] and at most [p] trustees is opened by any [threshold] of
    its trustees: from their (index, share) pairs, in any order,
    [reconstruct_secret] returns [(True, secret)] and leaves the will as it
    is. *)
Theorem create_will_reconstruct_secret
  (sha256_hexdigest : list Z -> string) (self : CryptoWill.t)
  (heirs : list string) (heir_percentages : list Z)
  (num_trustees threshold : Z) (s : rng) (w : CryptoWill.will_data)
  (revealed_shares : list revealed) :
  Z.prime (p (CryptoWill.vss self)) ->
  draws_below (p (CryptoWill.vss self)) s ->
  1 <= threshold -> num_trustees <= p (CryptoWill.vss self) ->
  CryptoWill.create_will sha256_hexdigest self heirs heir_percentages
    num_trustees threshold s = inr w ->
  length revealed_shares = Z.to_nat threshold ->
  NoDup (map fst revealed_shares) ->
  (forall x sh, In (x, sh) revealed_shares ->
     exists td, In td (CryptoWill.trustee_shares w) /\
                CryptoWill.trustee_index td = x /\ CryptoWill.share td = sh) ->
  CryptoWill.reconstruct_secret sha256_hexdigest self w revealed_shares
  = (inr (true, CryptoWill.secret w), w).
Proof.
  intros Hp Hd Ht Hn Hw Hlen Hnd Hsel.
  pose proof (p_prime_pos _ Hp) as Hpos.
  apply create_will_inv in Hw.
  destruct Hw as (_ & _ & _ & digest & shares & commitments & f_coeffs
                  & Hh & Hg & ->).
  cbn [CryptoWill.trustee_shares] in Hsel.
  rewrite generate_returns in Hg. cbv zeta in Hg.
  injection Hg as Hshares Hcomm Hf.
  pose proof (generate_polynomial_coeffs (CryptoWill.vss self) (s O) threshold
                (fun k => s (S k))) as C.
  pose proof (generate_polynomial_length (CryptoWill.vss self) (s O) threshold
                (fun k => s (S k))) as L.
  rewrite Hf in C, L, Hshares.
  unfold CryptoWill.reconstruct_secret.
  cbn [CryptoWill.threshold CryptoWill.secret_hash CryptoWill.secret].
  destruct (Z.ltb_spec (Z.of_nat (length revealed_shares)) threshold); [lia|].
  replace threshold with (Z.of_nat (length revealed_shares)) at 1 by lia.
  rewrite (lagrange_of_evaluations _ _ f_coeffs); try assumption.
  - rewrite C. cbn [nth]. rewrite Z.mod_small by apply Hd.
    cbn [bind]. rewrite Hh. cbn [bind]. unfold ret.
    rewrite String.eqb_refl. reflexivity.
  - lia.
  - intros x sh Hin. destruct (Hsel x sh Hin) as (td & Htd & <- & <-).
    apply In_nth_error in Htd. destruct Htd as [k Hk].
    rewrite nth_error_make_trustees in Hk.
    destruct (nth_error shares k) as [sh|] eqn:E; [|discriminate].
    cbn [option_map] in Hk. injection Hk as <-.
    cbn [CryptoWill.trustee_index CryptoWill.share].
    assert (Lk : (k < length shares)%nat) by (apply nth_error_Some; congruence).
    rewrite <- Hshares in E, Lk. rewrite length_map, range_length in Lk.
    rewrite nth_error_map, range_nth_error in E by exact Lk.
    unfold option_map in E.
    apply (f_equal (fun o => match o with Some v => v | None => sh end)) in E.
    cbv beta iota in E. rewrite <- E. cbn [fst].
    split; [lia|]. rewrite (Z.add_comm 1). reflexivity.
Qed.

Lemma create_will_reconstruct_secret_witness :
  exists w,
    CryptoWill.create_will (fun _ => "00"%string) (CryptoWill.init 7)
      ["0x1234"%string; "0x2345"%string] [60; 40] 5 2 sample_tape = inr w /\
    CryptoWill.reconstruct_secret (fun _ => "00"%string) (CryptoWill.init 7) w
      [(3, (6, 1)); (1, (3, 5))]
    = (inr (true, CryptoWill.secret w), w).
Proof.
  eexists. split; [vm_compute; reflexivity|].
  eapply (create_will_reconstruct_secret (fun _ => "00"%string)
            (CryptoWill.init 7) ["0x1234"%string; "0x2345"%string] [60; 40]
            5 2 sample_tape).
  - exact prime_7.
  - exact sample_tape_below.
  - lia.
  - cbn. lia.
  - vm_compute. reflexivity.
  - reflexivity.
  - repeat constructor; cbn; intuition discriminate.
  - intros x sh [E|[E|[]]]; inversion E; subst;
      eexists (CryptoWill.Trustee _ _ false false);
      (split; [|split]); [|reflexivity|reflexivity| |reflexivity|reflexivity];
      cbn; tauto.
Defined.

(** X19.  When [reconstruct_secret] returns a pair [(ok, value)] from at
    least [threshold] shares, [value] is what [lagrange_interpolation]
    returned, [ok] is true exactly when the hash of [value] is the stored
    [secret_hash], and the will is as before. *)
Theorem reconstruct_secret_flag
  (sha256_hexdigest : list Z -> string) (self : CryptoWill.t)
  (w w' : CryptoWill.will_data) (revealed_shares : list revealed)
  (ok : bool) (value : Z) :
  CryptoWill.threshold w <= Z.of_nat (length revealed_shares) ->
  CryptoWill.reconstruct_secret sha256_hexdigest self w revealed_shares
  = (inr (ok, value), w') ->
  w' = w /\
  lagrange_interpolation (CryptoWill.vss self) revealed_shares
    (CryptoWill.threshold w) = inr value /\
  (ok = true <->
   hash_secret sha256_hexdigest value = inr (CryptoWill.secret_hash w)).
Proof.
  intros Hlen. unfold CryptoWill.reconstruct_secret.
  destruct (Z.ltb_spec (Z.of_nat (length revealed_shares))
              (CryptoWill.threshold w)); [lia|].
  destruct (lagrange_interpolation _ _ _) as [e|r]; cbn [bind]; [discriminate|].
  destruct (hash_secret sha256_hexdigest r) as [e|digest] eqn:Eh; cbn [bind];
    [discriminate|].
  unfold ret. intro E. injection E as <- <- <-.
  split; [reflexivity|]. rewrite Eh. split; [reflexivity|].
  rewrite String.eqb_eq. split; [intros ->; reflexivity|congruence].
Qed.

Lemma reconstruct_secret_flag_witness :
  sample_will = sample_will /\
  lagrange_interpolation (CryptoWill.vss (CryptoWill.init 7))
    [(1, (3, 5)); (3, (6, 1)); (2, (1, 3))] (CryptoWill.threshold sample_will)
  = inr 5 /\
  (false = true <->
   hash_secret (fun _ => "01"%string) 5
   = inr (CryptoWill.secret_hash sample_will)).
Proof.
  apply (reconstruct_secret_flag (fun _ => "01"%string) (CryptoWill.init 7)
           sample_will sample_will [(1, (3, 5)); (3, (6, 1)); (2, (1, 3))]).
  - cbn. lia.
  - vm_compute. reflexivity.
Defined.

(** X20.  [reconstruct_secret] does not catch the failure of the core: with
    at least [threshold] shares of which two among the first [threshold] have
    indices congruent modulo [p], it raises the missing-inverse error instead
    of returning [(False, 0)]. *)
Theorem reconstruct_secret_congruent_indices
  (sha256_hexdigest : list Z -> string) (self : CryptoWill.t)
  (w : CryptoWill.will_data) (revealed_shares : list revealed)
  (a b : nat) (x_a x_b : Z) (s_a s_b : Z * Z) :
  1 < p (CryptoWill.vss self) ->
  CryptoWill.threshold w <= Z.of_nat (length revealed_shares) ->
  a <> b ->
  Z.of_nat a < CryptoWill.threshold w -> Z.of_nat b < CryptoWill.threshold w ->
  nth_error revealed_shares a = Some (x_a, s_a) ->
  nth_error revealed_shares b = Some (x_b, s_b) ->
  (p (CryptoWill.vss self) | x_a - x_b) ->
  CryptoWill.reconstruct_secret sha256_hexdigest self w revealed_shares
  = (inl DomainError, w).
Proof.
  intros Hp Hlen Hab Ha Hb Ea Eb D. unfold CryptoWill.reconstruct_secret.
  destruct (Z.ltb_spec (Z.of_nat (length revealed_shares))
              (CryptoWill.threshold w)); [lia|].
  rewrite (lagrange_congruent_error (CryptoWill.vss self) revealed_shares
             (CryptoWill.threshold w) a b x_a x_b s_a s_b); auto.
Qed.

Lemma reconstruct_secret_congruent_indices_witness :
  CryptoWill.reconstruct_secret (fun _ => "00"%string) (CryptoWill.init 7)
    sample_will [(1, (3, 5)); (3, (6, 1)); (1, (3, 5))]
  = (inl DomainError, sample_will).
Proof.
  apply (reconstruct_secret_congruent_indices (fun _ => "00"%string)
           (CryptoWill.init 7) sample_will
           [(1, (3, 5)); (3, (6, 1)); (1, (3, 5))]
           0%nat 2%nat 1 1 (3, 5) (3, 5)).
  - reflexivity.
  - cbn. lia.
  - discriminate.
  - reflexivity.
  - reflexivity.
  - reflexivity.
  - reflexivity.
  - exists 0. reflexivity.
Defined.

(** ** The will: verification of a trustee *)


Lemma getitem_below_range {A : Type} (l : list A) (j : Z) :
  j < - Z.of_nat (length l) -> getitem l j = inl IndexError.
Proof.
  intro H. unfold getitem. destruct (Z.ltb_spec j 0); [|lia].
  destruct (Z.ltb_spec (j + Z.of_nat (length l)) 0); [reflexivity|lia].
Qed.



(** X21.  [verify_trustee_share] raises IndexError, leaving the will as it
    is, when the trustee index exceeds the number of trustees or is not above
    minus that number. *)
Theorem verify_trustee_share_index_error
  (self : CryptoWill.t) (w : CryptoWill.will_data) (trustee_index : Z) :
  Z.of_nat (length (CryptoWill.trustee_shares w)) < trustee_index \/
  trustee_index <= - Z.of_nat (length (CryptoWill.trustee_shares w)) ->
  CryptoWill.verify_trustee_share self w trustee_index = (inl IndexError, w).
Proof.
  intro H. unfold CryptoWill.verify_trustee_share.
  destruct H as [H|H].
  - rewrite getitem_out_of_range by lia. reflexivity.
  - rewrite getitem_below_range by lia. reflexivity.
Qed.

Lemma verify_trustee_share_index_error_witness :
  CryptoWill.verify_trustee_share (CryptoWill.init 7) sample_will 1
  = (inl IndexError, sample_will).
Proof.
  apply (verify_trustee_share_index_error (CryptoWill.init 7) sample_will 1).
  left. cbn. lia.
Defined.


(** X23.  In a will created with threshold 1 over a modulus above 2, every
    trustee passes [verify_trustee_share], which returns [True]. *)
Theorem create_will_verify_trustee_share
  (sha256_hexdigest : list Z -> string) (self : CryptoWill.t)
  (heirs : list string) (heir_percentages : list Z)
  (num_trustees : Z) (s : rng) (w : CryptoWill.will_data) (trustee_index : Z) :
  2 < p (CryptoWill.vss self) ->
  draws_below (p (CryptoWill.vss self)) s ->
  CryptoWill.create_will sha256_hexdigest self heirs heir_percentages
    num_trustees 1 s = inr w ->
  1 <= trustee_index <= num_trustees ->
  exists w', CryptoWill.verify_trustee_share self w trustee_index
             = (inr true, w').
Proof.
  intros Hp Hd Hw Hi. apply create_will_inv in Hw.
  destruct Hw as (_ & _ & _ & digest & shares & commitments & f_coeffs
                  & _ & Hg & ->).
  set (vss := CryptoWill.vss self) in *.
  set (s1 := fun k => s (S k)) in *.
  assert (Hd1 : draws_below (p vss) s1) by (intro k; apply Hd).
  pose proof (generate_returns vss (s O) 1 num_trustees s1) as R.
  cbv zeta in R. rewrite Hg in R. injection R as Hshares _ Hf.
  pose proof (generate_polynomial_coeffs vss (s O) 1 s1) as Cf.
  pose proof (generate_polynomial_coeffs vss 0 1
                (snd (generate_polynomial vss (s O) 1 s1))) as Cg.
  cbn [Z.sub Z.add Z.opp Z.pos_sub Z.to_nat seq map] in Cf, Cg.
  destruct (generate_polynomial vss (s O) 1 s1) as [f0 s2] eqn:Ef.
  cbn [fst snd] in *. subst f0. subst f_coeffs.
  destruct (generate_polynomial vss 0 1 s2) as [g0 s3] eqn:Eg.
  cbn [fst] in *. subst g0.
  assert (L : length shares = Z.to_nat num_trustees).
  { rewrite Hshares, length_map, range_length. f_equal. lia. }
  destruct (nth_error shares (Z.to_nat (trustee_index - 1))) as [sh|] eqn:E.
  2:{ apply nth_error_None in E. lia. }
  unfold CryptoWill.verify_trustee_share.
  cbn [CryptoWill.trustee_shares CryptoWill.commitments CryptoWill.threshold].
  rewrite (getitem_nth_error _ (trustee_index - 1)
             (CryptoWill.Trustee trustee_index sh false false)); [|lia|].
  2:{ rewrite nth_error_make_trustees, E. cbn [option_map].
      do 2 f_equal. lia. }
  cbv beta iota. cbn [CryptoWill.share]. fold vss.
  rewrite (verify_generated_share vss (s O) 1 num_trustees s1 s2 s3
             [s O] [0] shares commitments trustee_index sh);
    try assumption; try lia.
  - eexists. reflexivity.
  - apply Hd.
  - cbn [peval]. pose proof (Hd O). lia.
  - cbn [peval]. lia.
Qed.

Lemma create_will_verify_trustee_share_witness :
  exists w w',
    CryptoWill.create_will (fun _ => "00"%string) (CryptoWill.init 7)
      ["0x1234"%string; "0x2345"%string] [60; 40] 5 1 sample_tape = inr w /\
    CryptoWill.verify_trustee_share (CryptoWill.init 7) w 4 = (inr true, w').
Proof.
  eexists. 
  assert (E : CryptoWill.create_will (fun _ => "00"%string) (CryptoWill.init 7)
                ["0x1234"%string; "0x2345"%string] [60; 40] 5 1 sample_tape
              = inr _) by (vm_compute; reflexivity).
  destruct (create_will_verify_trustee_share (fun _ => "00"%string)
              (CryptoWill.init 7) ["0x1234"%string; "0x2345"%string] [60; 40]
              5 sample_tape _ 4 ltac:(reflexivity) sample_tape_below E
              ltac:(lia)) as [w' H].
  exists w'. split; [exact E|exact H].
Defined.
